(** * FaceTracker: a shallow embedding of [track/facetracker.py]

    The tracker keeps two insertion-ordered dictionaries keyed by object id
    ([objectsTracked]: id -> centroid, [disappeared]: id -> missed frames), a
    counter [nextObjectID] and the constant [maxDisappeared].  Its methods
    mutate [self] and may raise, so they are embedded in a state-and-exception
    monad whose state is the tracker.

    Numbers.  Ids, counters and coordinates are Python integers, modelled as
    [Z].  The source computes a centroid coordinate as [int((a + b) / 2)]:
    a true division followed by truncation toward zero, which is [Z.quot].
    [distance.cdist] returns Euclidean distances; the source only compares
    them ([min], [argmin], [argsort]), and on integer centroids the order of
    the distances is the order of their squares, so the distance matrix holds
    the squared distances.  Both readings are exact on pixel coordinates,
    where every intermediate value is an integer that a double represents
    exactly.

    Library behaviour.  [argmin] returns the first index of a minimum (as
    numpy documents).  [argsort] returns the indices in ascending order of
    their values, but numpy's default sort is not stable: among equal values
    the order is the library's choice, and its sorting paths differ from four
    values on.  CPython enumerates a set of integers in the order of its hash
    table, which is ascending only while every element is below the size of
    the table.  The model leaves both orders open: the methods run on a
    [Platform], which supplies an [argsort] that returns some sorted
    permutation of the indices and an enumeration of the unused indices in
    some order.  Two facts are fixed: on at most three values [argsort] keeps
    equal values in index order, and the indices below 8, the least size of a
    table, are enumerated ascending.  The general theorems hold on every
    platform; the examples are evaluated on [reference_platform], the stable
    sort with the ascending enumeration, and their inputs are within these
    two bounds.  The order in which the unused rows are visited has no effect
    on the result; the order of the unused columns only decides which of the
    new ids goes to which detection. *)

From Stdlib Require Import ZArith List Lia Bool Permutation Sorted.
Import ListNotations.
Local Open Scope Z_scope.

(** ** Values *)

Definition Centroid : Type := (Z * Z)%type.

(** A bounding box [(beginX, beginY, endX, endY)]. *)
Definition Box : Type := (Z * Z * Z * Z)%type.

(** ** [collections.OrderedDict] with integer keys

    An association list in insertion order, one entry per key.  Assigning to
    a present key keeps its position, assigning to an absent key appends. *)
Module OrderedDict.

Definition t (V : Type) : Type := list (Z * V).

Definition empty {V : Type} : t V := [].

Definition keys {V : Type} (d : t V) : list Z := map fst d.

Definition values {V : Type} (d : t V) : list V := map snd d.

Definition len {V : Type} (d : t V) : nat := length d.

Fixpoint getitem {V : Type} (d : t V) (k : Z) : option V :=
  match d with
  | [] => None
  | (k', v) :: d' => if k =? k' then Some v else getitem d' k
  end.

Definition contains {V : Type} (d : t V) (k : Z) : bool :=
  existsb (Z.eqb k) (keys d).

Fixpoint setitem {V : Type} (d : t V) (k : Z) (v : V) : t V :=
  match d with
  | [] => [(k, v)]
  | (k', v') :: d' =>
      if k =? k' then (k', v) :: d' else (k', v') :: setitem d' k v
  end.

Definition delitem {V : Type} (d : t V) (k : Z) : t V :=
  filter (fun kv => negb (k =? fst kv)) d.

End OrderedDict.

(** ** The tracker object and the monad of its methods *)

Record FaceTracker : Type := mkFaceTracker {
  nextObjectID : Z;
  objectsTracked : OrderedDict.t Centroid;
  disappeared : OrderedDict.t Z;
  maxDisappeared : Z
}.

(** [FaceTracker.__init__] *)
Definition init (maxDisappeared : Z) : FaceTracker :=
  {| nextObjectID := 1;
     objectsTracked := OrderedDict.empty;
     disappeared := OrderedDict.empty;
     maxDisappeared := maxDisappeared |}.

Inductive exn : Type := KeyError | IndexError | RuntimeError.

Inductive outcome (A : Type) : Type :=
| Return (a : A)
| Raise (e : exn).
Arguments Return {A} a.
Arguments Raise {A} e.

(** A method runs on [self]; whether it returns or raises, the mutations it
    made to [self] stay. *)
Definition M (A : Type) : Type := FaceTracker -> outcome A * FaceTracker.

Definition ret {A : Type} (a : A) : M A := fun self => (Return a, self).

Definition raise {A : Type} (e : exn) : M A := fun self => (Raise e, self).

Definition bind {A B : Type} (m : M A) (f : A -> M B) : M B :=
  fun self =>
    match m self with
    | (Return a, self') => f a self'
    | (Raise e, self') => (Raise e, self')
    end.

Declare Scope py_scope.
Delimit Scope py_scope with py.
Notation "x <- m ;; f" := (bind m (fun x => f))
  (at level 61, m at next level, right associativity) : py_scope.
Notation "' pat <- m ;; f" := (bind m (fun x => match x with pat => f end))
  (at level 61, pat pattern, m at next level, right associativity) : py_scope.
Notation "m ;; f" := (bind m (fun _ => f))
  (at level 61, right associativity) : py_scope.
Local Open Scope py_scope.

Definition get_self : M FaceTracker := fun self => (Return self, self).

Definition put_self (self' : FaceTracker) : M unit :=
  fun _ => (Return tt, self').

(** [for x in l: body(x)] over a list. *)
Fixpoint for_each {A : Type} (l : list A) (body : A -> M unit) : M unit :=
  match l with
  | [] => ret tt
  | x :: l' => body x ;; for_each l' body
  end.

(** [l[i]] on a Python list. *)
Definition list_getitem {A : Type} (l : list A) (i : nat) : M A :=
  match nth_error l i with
  | Some a => ret a
  | None => raise IndexError
  end.

(** *** Attribute accesses *)

(** [self.objectsTracked[k] = v] *)
Definition objectsTracked_setitem (k : Z) (v : Centroid) : M unit :=
  self <- get_self ;;
  put_self {| nextObjectID := nextObjectID self;
              objectsTracked := OrderedDict.setitem (objectsTracked self) k v;
              disappeared := disappeared self;
              maxDisappeared := maxDisappeared self |}.

(** [del self.objectsTracked[k]] *)
Definition objectsTracked_delitem (k : Z) : M unit :=
  self <- get_self ;;
  if OrderedDict.contains (objectsTracked self) k then
    put_self {| nextObjectID := nextObjectID self;
                objectsTracked := OrderedDict.delitem (objectsTracked self) k;
                disappeared := disappeared self;
                maxDisappeared := maxDisappeared self |}
  else raise KeyError.

(** [self.disappeared[k]] *)
Definition disappeared_getitem (k : Z) : M Z :=
  self <- get_self ;;
  match OrderedDict.getitem (disappeared self) k with
  | Some v => ret v
  | None => raise KeyError
  end.

(** [self.disappeared[k] = v] *)
Definition disappeared_setitem (k : Z) (v : Z) : M unit :=
  self <- get_self ;;
  put_self {| nextObjectID := nextObjectID self;
              objectsTracked := objectsTracked self;
              disappeared := OrderedDict.setitem (disappeared self) k v;
              maxDisappeared := maxDisappeared self |}.

(** [del self.disappeared[k]] *)
Definition disappeared_delitem (k : Z) : M unit :=
  self <- get_self ;;
  if OrderedDict.contains (disappeared self) k then
    put_self {| nextObjectID := nextObjectID self;
                objectsTracked := objectsTracked self;
                disappeared := OrderedDict.delitem (disappeared self) k;
                maxDisappeared := maxDisappeared self |}
  else raise KeyError.

(** [self.disappeared[k] += 1] *)
Definition disappeared_increment (k : Z) : M unit :=
  v <- disappeared_getitem k ;;
  disappeared_setitem k (v + 1).

(** [self.nextObjectID += 1] *)
Definition nextObjectID_increment : M unit :=
  self <- get_self ;;
  put_self {| nextObjectID := nextObjectID self + 1;
              objectsTracked := objectsTracked self;
              disappeared := disappeared self;
              maxDisappeared := maxDisappeared self |}.

(** ** [register] and [deregister] *)

Definition register (centroid : Centroid) : M unit :=
  self <- get_self ;;
  objectsTracked_setitem (nextObjectID self) centroid ;;
  self <- get_self ;;
  disappeared_setitem (nextObjectID self) 0 ;;
  nextObjectID_increment.

Definition deregister (objectID : Z) : M unit :=
  objectsTracked_delitem objectID ;;
  disappeared_delitem objectID.

(** Increment the miss counter of [objectID] and deregister it once the
    counter exceeds [maxDisappeared]: the body shared by the two loops over
    lost objects. *)
Definition mark_disappeared (objectID : Z) : M unit :=
  disappeared_increment objectID ;;
  d <- disappeared_getitem objectID ;;
  self <- get_self ;;
  if d >? maxDisappeared self then deregister objectID else ret tt.

(** ** Iterating [self.disappeared.keys()]

    The iterator of an [OrderedDict] holds the key it will yield next.  When
    asked for a key it first stops if there is none left; otherwise it raises
    [RuntimeError] if the dictionary gained or lost a key since the iterator
    was made, and only then yields.  [snapshot] is the key list at the
    creation of the iterator, [pending] the keys not yet yielded. *)
Fixpoint for_each_disappeared_key
    (snapshot pending : list Z) (body : Z -> M unit) : M unit :=
  match pending with
  | [] => ret tt
  | objectID :: pending' =>
      self <- get_self ;;
      if list_eq_dec Z.eq_dec (OrderedDict.keys (disappeared self)) snapshot
      then body objectID ;; for_each_disappeared_key snapshot pending' body
      else raise RuntimeError
  end.

(** ** Centroids and the distance matrix *)

(** [(int((beginX + endX) / 2), int((beginY + endY) / 2))] *)
Definition centroid_of (b : Box) : Centroid :=
  let '(beginX, beginY, endX, endY) := b in
  (Z.quot (beginX + endX) 2, Z.quot (beginY + endY) 2).

(** The square of the Euclidean distance between two centroids. *)
Definition sqdist (p q : Centroid) : Z :=
  (fst p - fst q) * (fst p - fst q) + (snd p - snd q) * (snd p - snd q).

(** [distance.cdist(XA, XB, 'euclidean')], entries squared: one row per
    element of [XA], one column per element of [XB]. *)
Definition cdist (XA XB : list Centroid) : list (list Z) :=
  map (fun a => map (sqdist a) XB) XA.

(** [row.min()] *)
Definition row_min (row : list Z) : Z :=
  match row with
  | [] => 0
  | x :: row' => fold_left Z.min row' x
  end.

(** [row.argmin()]: the first index holding the minimum. *)
Fixpoint argmin_from (i best_i : nat) (best : Z) (row : list Z) : nat :=
  match row with
  | [] => best_i
  | x :: row' =>
      if x <? best then argmin_from (S i) i x row'
      else argmin_from (S i) best_i best row'
  end.

Definition argmin (row : list Z) : nat :=
  match row with
  | [] => 0%nat
  | x :: row' => argmin_from 1 0 x row'
  end.

(** ** What numpy and CPython leave open *)

(** The stable sort of the indices of [v]: ascending values, equal values in
    index order (an insertion sort). *)
Fixpoint insert_index (v : list Z) (i : nat) (sorted : list nat) : list nat :=
  match sorted with
  | [] => [i]
  | j :: sorted' =>
      if nth i v 0 <=? nth j v 0 then i :: sorted
      else j :: insert_index v i sorted'
  end.

Definition stable_argsort (v : list Z) : list nat :=
  fold_right (insert_index v) [] (seq 0 (length v)).

(** [i in s] *)
Definition mem (i : nat) (s : list nat) : bool := existsb (Nat.eqb i) s.

(** The elements of [set(range(0, n)).difference(s)], ascending. *)
Definition ascending_difference (n : nat) (s : list nat) : list nat :=
  filter (fun i => negb (mem i s)) (seq 0 n).

(** Another sort and another enumeration: from four values on, equal values
    in descending index order; from nine indices on, the unused indices
    descending. *)
Definition reversing_argsort (v : list Z) : list nat :=
  if (length v <=? 3)%nat then stable_argsort v
  else fold_right (insert_index v) [] (rev (seq 0 (length v))).

Definition descending_difference (n : nat) (s : list nat) : list nat :=
  if (n <=? 8)%nat then ascending_difference n s
  else rev (ascending_difference n s).

(** [i] comes no later than [j] in ascending order of the values of [v]. *)
Definition key_le (v : list Z) (i j : nat) : Prop := nth i v 0 <= nth j v 0.

(** The two library calls whose result is not fixed by their arguments.
    [argsort v] is [v.argsort()]: the indices of [v] sorted by value, in an
    order of equal values that only short arrays fix.  [range_difference n s]
    is the order in which [set(range(0, n)).difference(s)] is enumerated,
    ascending as long as the indices are below 8. *)
Class Platform : Type := {
  argsort : list Z -> list nat;
  argsort_perm : forall v, Permutation (argsort v) (seq 0 (length v));
  argsort_sorted : forall v, StronglySorted (key_le v) (argsort v);
  argsort_short :
    forall v, (length v <= 3)%nat -> argsort v = stable_argsort v;
  range_difference : nat -> list nat -> list nat;
  range_difference_perm :
    forall n s, Permutation (range_difference n s) (ascending_difference n s);
  range_difference_small :
    forall n s, (n <= 8)%nat -> range_difference n s = ascending_difference n s
}.

(** ** [update] *)

Section Tracker.

Context {platform : Platform}.

(** Lines 105-121: walk the (row, column) pairs; a pair whose row or column
    is already used is skipped, any other pair moves the object of that row
    to the centroid of that column and resets its miss counter.  Returns
    [usedRows] and [usedCols]. *)
Fixpoint match_pairs (objectIDs : list Z) (inputCentroid : list Centroid)
    (pairs : list (nat * nat)) (usedRows usedCols : list nat)
    : M (list nat * list nat) :=
  match pairs with
  | [] => ret (usedRows, usedCols)
  | (row, col) :: pairs' =>
      if mem row usedRows || mem col usedCols
      then match_pairs objectIDs inputCentroid pairs' usedRows usedCols
      else
        objectID <- list_getitem objectIDs row ;;
        centroid <- list_getitem inputCentroid col ;;
        objectsTracked_setitem objectID centroid ;;
        disappeared_setitem objectID 0 ;;
        match_pairs objectIDs inputCentroid pairs'
                    (row :: usedRows) (col :: usedCols)
  end.

(** [rows = objDist.min(axis=1).argsort()] *)
Definition row_order (objDist : list (list Z)) : list nat :=
  argsort (map row_min objDist).

(** [cols = objDist.argmin(axis=1)[rows]] *)
Definition col_choice (objDist : list (list Z)) (rows : list nat) : list nat :=
  map (fun row => nth row (map argmin objDist) 0%nat) rows.

(** Lines 125-146: the objects of the unused rows are marked as disappeared
    when there are at least as many objects as detections; otherwise the
    centroids of the unused columns are registered. *)
Definition settle_unmatched (objectIDs : list Z) (inputCentroid : list Centroid)
    (shape0 shape1 : nat) (usedRows usedCols : list nat) : M unit :=
  let unusedRows := range_difference shape0 usedRows in
  let unusedCols := range_difference shape1 usedCols in
  if (shape1 <=? shape0)%nat then
    for_each unusedRows (fun row =>
      objectID <- list_getitem objectIDs row ;;
      mark_disappeared objectID)
  else
    for_each unusedCols (fun col =>
      centroid <- list_getitem inputCentroid col ;;
      register centroid).

(** Lines 84-146: the branch taken when objects are tracked and detections
    are present. *)
Definition match_detections (inputCentroid : list Centroid) : M unit :=
  self <- get_self ;;
  let objectIDs := OrderedDict.keys (objectsTracked self) in
  let objectsCentroid := OrderedDict.values (objectsTracked self) in
  let objDist := cdist objectsCentroid inputCentroid in
  let shape0 := length objectsCentroid in
  let shape1 := length inputCentroid in
  if (0 <? shape0 * shape1)%nat then
    let rows := row_order objDist in
    let cols := col_choice objDist rows in
    '(usedRows, usedCols) <-
       match_pairs objectIDs inputCentroid (combine rows cols) [] [] ;;
    settle_unmatched objectIDs inputCentroid shape0 shape1 usedRows usedCols
  else ret tt.

Definition update (rect : list Box) : M (OrderedDict.t Centroid) :=
  match rect with
  | [] =>
      self <- get_self ;;
      let keys := OrderedDict.keys (disappeared self) in
      for_each_disappeared_key keys keys mark_disappeared ;;
      self <- get_self ;;
      ret (objectsTracked self)
  | _ :: _ =>
      let inputCentroid := map centroid_of rect in
      self <- get_self ;;
      (if (OrderedDict.len (objectsTracked self) =? 0)%nat
       then for_each inputCentroid register
       else match_detections inputCentroid) ;;
      self <- get_self ;;
      ret (objectsTracked self)
  end.

(** A sequence of [update] calls on one tracker, one per frame.  A caller
    that catches an exception keeps the tracker as the failed call left it,
    so the run goes on from that state. *)
Definition run (self : FaceTracker) (frames : list (list Box)) : FaceTracker :=
  fold_left (fun s rect => snd (update rect s)) frames self.

End Tracker.


(** ** Specification-level definitions *)

(** The class invariant: both dictionaries hold the same ids in the same
    order, no id twice, every id below [nextObjectID]. *)
Definition wf (self : FaceTracker) : Prop :=
  OrderedDict.keys (objectsTracked self) = OrderedDict.keys (disappeared self)
  /\ NoDup (OrderedDict.keys (objectsTracked self))
  /\ Forall (fun k => k < nextObjectID self)
            (OrderedDict.keys (objectsTracked self)).

(** The pairs that the walk of [match_pairs] accepts, in order. *)
Fixpoint accepted (pairs : list (nat * nat)) (usedRows usedCols : list nat)
    : list (nat * nat) :=
  match pairs with
  | [] => []
  | (row, col) :: pairs' =>
      if mem row usedRows || mem col usedCols
      then accepted pairs' usedRows usedCols
      else (row, col) :: accepted pairs' (row :: usedRows) (col :: usedCols)
  end.

(** The effect of one accepted pair on the tracker. *)
Definition assign (objectID : Z) (centroid : Centroid) (self : FaceTracker)
    : FaceTracker :=
  {| nextObjectID := nextObjectID self;
     objectsTracked := OrderedDict.setitem (objectsTracked self) objectID centroid;
     disappeared := OrderedDict.setitem (disappeared self) objectID 0;
     maxDisappeared := maxDisappeared self |}.

(** The effect of [mark_disappeared] on an object with miss counter [m]. *)
Definition lose (objectID : Z) (m : Z) (self : FaceTracker) : FaceTracker :=
  if m + 1 >? maxDisappeared self then
    {| nextObjectID := nextObjectID self;
       objectsTracked := OrderedDict.delitem (objectsTracked self) objectID;
       disappeared := OrderedDict.delitem (disappeared self) objectID;
       maxDisappeared := maxDisappeared self |}
  else
    {| nextObjectID := nextObjectID self;
       objectsTracked := objectsTracked self;
       disappeared := OrderedDict.setitem (disappeared self) objectID (m + 1);
       maxDisappeared := maxDisappeared self |}.

(** [later self self']: [self'] can follow [self] in the life of a tracker.
    The counter did not go back, and an id tracked in [self'] either was
    already tracked in [self] or was handed out in between. *)
Definition later (self self' : FaceTracker) : Prop :=
  nextObjectID self <= nextObjectID self'
  /\ forall k, In k (OrderedDict.keys (objectsTracked self')) ->
       In k (OrderedDict.keys (objectsTracked self))
       \/ nextObjectID self <= k < nextObjectID self'.

(** Ids handed out by [len] consecutive registrations starting at [n]. *)
Fixpoint ids_from (n : Z) (len : nat) : list Z :=
  match len with
  | O => []
  | S len' => n :: ids_from (n + 1) len'
  end.

(** The effect of the accepted pairs, in order. *)
Definition assign_all (objectIDs : list Z) (inputCentroid : list Centroid)
    (pairs : list (nat * nat)) (self : FaceTracker) : FaceTracker :=
  fold_left (fun s rc => assign (nth (fst rc) objectIDs 0)
                                (nth (snd rc) inputCentroid (0, 0)) s)
            pairs self.

(** The id of the object on the row of a pair. *)
Definition id_of_pair (objectIDs : list Z) (rc : nat * nat) : Z :=
  nth (fst rc) objectIDs 0.

(** The (row, column) pairs that [update] walks on tracker [self] with the
    detection centroids [inputCentroid]: the rows in ascending order of
    their minimum distance, each with its arg-min column. *)
Definition pairs_of {platform : Platform}
    (self : FaceTracker) (inputCentroid : list Centroid)
    : list (nat * nat) :=
  let objDist := cdist (OrderedDict.values (objectsTracked self)) inputCentroid in
  let rows := row_order objDist in
  combine rows (col_choice objDist rows).

(** The pairs accepted by that walk, and the tracker after it. *)
Definition matching {platform : Platform}
    (self : FaceTracker) (inputCentroid : list Centroid)
    : list (nat * nat) :=
  accepted (pairs_of self inputCentroid) [] [].

Definition after_matching {platform : Platform}
    (self : FaceTracker) (inputCentroid : list Centroid)
    : FaceTracker :=
  assign_all (OrderedDict.keys (objectsTracked self)) inputCentroid
             (matching self inputCentroid) self.

(** The effect of registering the centroids [cs] one after the other. *)
Definition register_all (cs : list Centroid) (self : FaceTracker)
    : FaceTracker :=
  let ids := ids_from (nextObjectID self) (length cs) in
  {| nextObjectID := nextObjectID self + Z.of_nat (length cs);
     objectsTracked := objectsTracked self ++ combine ids cs;
     disappeared := disappeared self ++ map (fun k => (k, 0)) ids;
     maxDisappeared := maxDisappeared self |}.

(** What one call of [update] on [rect] can have done to the object [k],
    tracked with centroid [c] and miss counter [m] before the call, in the
    tracker [s'] that the call leaves: matched it with a detection, counted a
    miss (and deregistered it if that exceeds [maxDisappeared]), or left it
    as it was. *)
Definition matched_by (rect : list Box) (s' : FaceTracker) (k : Z) : Prop :=
  exists c', In c' (map centroid_of rect)
             /\ OrderedDict.getitem (objectsTracked s') k = Some c'
             /\ OrderedDict.getitem (disappeared s') k = Some 0.

Definition lost_in (s s' : FaceTracker) (k : Z) (c : Centroid) (m : Z) : Prop :=
  if m + 1 >? maxDisappeared s
  then OrderedDict.getitem (objectsTracked s') k = None
       /\ OrderedDict.getitem (disappeared s') k = None
  else OrderedDict.getitem (objectsTracked s') k = Some c
       /\ OrderedDict.getitem (disappeared s') k = Some (m + 1).

Definition untouched_in (s' : FaceTracker) (k : Z) (c : Centroid) (m : Z)
    : Prop :=
  OrderedDict.getitem (objectsTracked s') k = Some c
  /\ OrderedDict.getitem (disappeared s') k = Some m.

(** A decision procedure for [wf]. *)
Fixpoint distinct (l : list Z) : bool :=
  match l with
  | [] => true
  | k :: l' => negb (existsb (Z.eqb k) l') && distinct l'
  end.

Definition wf_check (self : FaceTracker) : bool :=
  (if list_eq_dec Z.eq_dec (OrderedDict.keys (objectsTracked self))
                  (OrderedDict.keys (disappeared self))
   then true else false)
  && distinct (OrderedDict.keys (objectsTracked self))
  && forallb (fun k => k <? nextObjectID self)
             (OrderedDict.keys (objectsTracked self)).

(** [self.disappeared[objectID] += 1] on one entry of the dictionary. *)
Definition miss (km : Z * Z) : Z * Z := (fst km, snd km + 1).

(** Every miss counter is between 0 and [maxDisappeared]. *)
Definition counters_bounded (self : FaceTracker) : Prop :=
  forall k m, OrderedDict.getitem (disappeared self) k = Some m ->
              0 <= m <= maxDisappeared self.

(** ** Example trackers *)

(** The tracker after one frame with two faces at (0, 0) and (20, 0), and a
    frame with three detections of which the first is the nearest to both
    tracked objects. *)
Definition two_faces : FaceTracker :=
  {| nextObjectID := 3;
     objectsTracked := [(1, (0, 0)); (2, (20, 0))];
     disappeared := [(1, 0); (2, 0)];
     maxDisappeared := 13 |}.

Definition three_boxes : list Box :=
  [(8, 0, 8, 0); (200, 0, 200, 0); (400, 0, 400, 0)].

(** Three faces tracked and a frame with one detection. *)
Definition three_faces : FaceTracker :=
  {| nextObjectID := 4;
     objectsTracked := [(1, (0, 0)); (2, (20, 0)); (3, (40, 0))];
     disappeared := [(1, 0); (2, 13); (3, 5)];
     maxDisappeared := 13 |}.

(** Four faces of which the first two are equally near to the first of two
    detections. *)
Definition four_faces : FaceTracker :=
  {| nextObjectID := 5;
     objectsTracked := [(1, (1, 0)); (2, (0, 1)); (3, (100, 5)); (4, (100, -7))];
     disappeared := [(1, 0); (2, 0); (3, 0); (4, 0)];
     maxDisappeared := 13 |}.

Definition two_boxes : list Box := [(0, 0, 0, 0); (100, 0, 100, 0)].

(** * Facts about the dictionaries *)

Module OrderedDictFacts.
Import OrderedDict.

Section Facts.
Context {V : Type}.
Implicit Types (d : t V) (k : Z) (v : V).

Lemma contains_In d k : contains d k = true <-> In k (keys d).
Proof.
  unfold contains. rewrite existsb_exists. split.
  - intros (x & Hx & E). apply Z.eqb_eq in E. now subst.
  - intros H. exists k. split; [assumption | apply Z.eqb_refl].
Qed.

Lemma contains_false d k : contains d k = false <-> ~ In k (keys d).
Proof.
  rewrite <- contains_In. destruct (contains d k); split; congruence.
Qed.

Lemma getitem_In d k : In k (keys d) <-> exists v, getitem d k = Some v.
Proof.
  induction d as [|[k' v'] d IH]; simpl.
  - split; [tauto | intros (v & H); discriminate].
  - destruct (Z.eqb_spec k k') as [->|N].
    + split; [eauto | tauto].
    + rewrite <- IH. split; [intros [E|H]; [congruence | assumption] | tauto].
Qed.

Lemma getitem_None d k : getitem d k = None <-> ~ In k (keys d).
Proof.
  rewrite getitem_In. destruct (getitem d k) as [v|]; split.
  - discriminate.
  - intros H. exfalso. apply H. eauto.
  - intros _ (v & H). discriminate.
  - reflexivity.
Qed.

Lemma getitem_setitem_same d k v : getitem (setitem d k v) k = Some v.
Proof.
  induction d as [|[k' v'] d IH]; simpl.
  - now rewrite Z.eqb_refl.
  - destruct (Z.eqb_spec k k') as [->|N]; simpl.
    + now rewrite Z.eqb_refl.
    + destruct (Z.eqb_spec k k'); [contradiction | exact IH].
Qed.

Lemma getitem_setitem_other d k k' v :
  k <> k' -> getitem (setitem d k v) k' = getitem d k'.
Proof.
  intros N. induction d as [|[k0 v0] d IH]; simpl.
  - destruct (Z.eqb_spec k' k); [congruence | reflexivity].
  - destruct (Z.eqb_spec k k0) as [->|N0]; simpl.
    + destruct (Z.eqb_spec k' k0); [congruence | reflexivity].
    + now rewrite IH.
Qed.

Lemma keys_setitem_In d k v : In k (keys d) -> keys (setitem d k v) = keys d.
Proof.
  induction d as [|[k' v'] d IH]; simpl; [tauto|].
  intros H. destruct (Z.eqb_spec k k') as [->|N]; simpl; [reflexivity|].
  f_equal. apply IH. destruct H; [congruence | assumption].
Qed.

Lemma setitem_fresh d k v : ~ In k (keys d) -> setitem d k v = d ++ [(k, v)].
Proof.
  induction d as [|[k' v'] d IH]; simpl; [reflexivity|].
  intros H. destruct (Z.eqb_spec k k') as [->|N]; [tauto|].
  f_equal. apply IH. tauto.
Qed.

Lemma keys_setitem_incl d k v k' :
  In k' (keys (setitem d k v)) <-> In k' (keys d) \/ k' = k.
Proof.
  induction d as [|[k0 v0] d IH]; simpl.
  - intuition congruence.
  - destruct (Z.eqb_spec k k0) as [->|N]; simpl.
    + intuition congruence.
    + rewrite IH. tauto.
Qed.

Lemma getitem_delitem_same d k : getitem (delitem d k) k = None.
Proof.
  induction d as [|[k' v'] d IH]; simpl; [reflexivity|].
  destruct (Z.eqb_spec k k') as [->|N]; simpl; [exact IH|].
  destruct (Z.eqb_spec k k'); [contradiction | exact IH].
Qed.

Lemma getitem_delitem_other d k k' :
  k <> k' -> getitem (delitem d k) k' = getitem d k'.
Proof.
  intros N. induction d as [|[k0 v0] d IH]; simpl; [reflexivity|].
  destruct (Z.eqb_spec k k0) as [->|N0]; simpl.
  - destruct (Z.eqb_spec k' k0); [congruence | exact IH].
  - now rewrite IH.
Qed.

Lemma keys_delitem d k :
  keys (delitem d k) = filter (fun k' => negb (k =? k')) (keys d).
Proof.
  induction d as [|[k' v'] d IH]; simpl; [reflexivity|].
  destruct (k =? k'); simpl; now rewrite IH.
Qed.

Lemma keys_delitem_In d k k' :
  In k' (keys (delitem d k)) <-> In k' (keys d) /\ k' <> k.
Proof.
  rewrite keys_delitem, filter_In, negb_true_iff, Z.eqb_neq.
  intuition congruence.
Qed.

End Facts.
End OrderedDictFacts.

(** * Facts about [argmin], [argsort] and the sets of indices *)

Section Argmin.

Lemma fold_min_le (row : list Z) : forall x,
  fold_left Z.min row x <= x
  /\ Forall (fun y => fold_left Z.min row x <= y) row.
Proof.
  induction row as [|y row IH]; intros x; simpl.
  - split; [lia | constructor].
  - destruct (IH (Z.min x y)) as [H1 H2]. split; [lia|].
    constructor; [lia | exact H2].
Qed.

Lemma row_min_le (row : list Z) : Forall (fun y => row_min row <= y) row.
Proof.
  destruct row as [|x row]; [constructor|]. simpl.
  destruct (fold_min_le row x) as [H1 H2]. constructor; assumption.
Qed.

(** The invariant of the scan: [best] is the value at [best_i], it is the
    minimum of the part already seen, and no earlier index holds it. *)
Lemma argmin_from_spec (seen row : list Z) (best_i : nat) (best : Z) :
  (best_i < length seen)%nat ->
  nth best_i seen 0 = best ->
  Forall (fun y => best <= y) seen ->
  (forall j, (j < best_i)%nat -> best < nth j seen 0) ->
  let a := argmin_from (length seen) best_i best row in
  (a < length (seen ++ row))%nat
  /\ nth a (seen ++ row) 0 = fold_left Z.min row best
  /\ (forall j, (j < a)%nat -> fold_left Z.min row best < nth j (seen ++ row) 0).
Proof.
  revert seen best_i best.
  induction row as [|x row IH]; intros seen best_i best Hlt Hnth Hmin Hfirst.
  - simpl. rewrite app_nil_r. auto.
  - cbn [argmin_from fold_left].
    replace (seen ++ x :: row) with ((seen ++ [x]) ++ row)
      by now rewrite <- app_assoc.
    replace (S (length seen)) with (length (seen ++ [x]))
      by (rewrite length_app; simpl; lia).
    destruct (Z.ltb_spec x best) as [Hx|Hx].
    + replace (Z.min best x) with x by lia.
      apply IH.
      * rewrite length_app; simpl; lia.
      * now rewrite nth_middle.
      * apply Forall_app. split.
        -- eapply Forall_impl; [|exact Hmin]. simpl. intros; lia.
        -- constructor; [lia | constructor].
      * intros j Hj. rewrite app_nth1 by assumption.
        rewrite Forall_forall in Hmin.
        specialize (Hmin (nth j seen 0) (nth_In _ _ Hj)). lia.
    + replace (Z.min best x) with best by lia.
      apply IH.
      * rewrite length_app; simpl; lia.
      * now rewrite app_nth1.
      * apply Forall_app. split; [assumption|].
        constructor; [lia | constructor].
      * intros j Hj. rewrite app_nth1 by lia. now apply Hfirst.
Qed.

(** [argmin] is an index of the row, the row holds its minimum there, and
    nowhere before. *)
Lemma argmin_spec (row : list Z) :
  row <> [] ->
  (argmin row < length row)%nat
  /\ nth (argmin row) row 0 = row_min row
  /\ (forall j, (j < argmin row)%nat -> row_min row < nth j row 0).
Proof.
  destruct row as [|x row]; [congruence|]. intros _.
  apply (argmin_from_spec [x] row 0 x); simpl.
  - lia.
  - reflexivity.
  - constructor; [lia | constructor].
  - intros j Hj. lia.
Qed.

End Argmin.

Section Argsort.

Variable v : list Z.

Lemma insert_index_perm i l : Permutation (insert_index v i l) (i :: l).
Proof.
  induction l as [|j l IH]; simpl; [reflexivity|].
  destruct (nth i v 0 <=? nth j v 0); [reflexivity|].
  rewrite IH. apply perm_swap.
Qed.

Lemma insert_index_sorted i l :
  StronglySorted (key_le v) l -> StronglySorted (key_le v) (insert_index v i l).
Proof.
  induction 1 as [|j l Hs IH Hj]; simpl.
  - repeat constructor.
  - destruct (Z.leb_spec (nth i v 0) (nth j v 0)) as [Hle|Hgt].
    + constructor; [now constructor|].
      constructor; [exact Hle|].
      eapply Forall_impl; [|exact Hj]. unfold key_le. intros; lia.
    + constructor; [exact IH|].
      eapply Permutation_Forall; [symmetry; apply insert_index_perm|].
      constructor; [unfold key_le; lia | exact Hj].
Qed.

Lemma sort_indices_perm l : Permutation (fold_right (insert_index v) [] l) l.
Proof.
  induction l as [|i l IH]; simpl; [reflexivity|].
  rewrite insert_index_perm. now constructor.
Qed.

Lemma sort_indices_sorted l :
  StronglySorted (key_le v) (fold_right (insert_index v) [] l).
Proof.
  induction l as [|i l IH]; simpl; [constructor|].
  now apply insert_index_sorted.
Qed.

Lemma stable_argsort_perm : Permutation (stable_argsort v) (seq 0 (length v)).
Proof. apply sort_indices_perm. Qed.

Lemma stable_argsort_sorted : StronglySorted (key_le v) (stable_argsort v).
Proof. apply sort_indices_sorted. Qed.

End Argsort.

Lemma mem_In i s : mem i s = true <-> In i s.
Proof.
  unfold mem. rewrite existsb_exists. split.
  - intros (x & Hx & E). apply Nat.eqb_eq in E. now subst.
  - intros H. exists i. split; [assumption | apply Nat.eqb_refl].
Qed.

Lemma mem_false i s : mem i s = false <-> ~ In i s.
Proof. rewrite <- mem_In. destruct (mem i s); split; congruence. Qed.

Lemma ascending_difference_In n s i :
  In i (ascending_difference n s) <-> (i < n)%nat /\ ~ In i s.
Proof.
  unfold ascending_difference.
  rewrite filter_In, in_seq, negb_true_iff, mem_false. intuition lia.
Qed.

Lemma ascending_difference_NoDup n s : NoDup (ascending_difference n s).
Proof. apply NoDup_filter, seq_NoDup. Qed.

(** ** The reference platform *)

(** The stable sort and the ascending enumeration form a platform. *)
Definition reference_platform : Platform :=
  {| argsort := stable_argsort;
     argsort_perm := stable_argsort_perm;
     argsort_sorted := stable_argsort_sorted;
     argsort_short := fun v _ => eq_refl;
     range_difference := ascending_difference;
     range_difference_perm := fun n s => Permutation_refl _;
     range_difference_small := fun n s _ => eq_refl |}.

(** ** Another platform *)

Lemma reversing_argsort_perm v :
  Permutation (reversing_argsort v) (seq 0 (length v)).
Proof.
  unfold reversing_argsort. destruct (length v <=? 3)%nat.
  - apply stable_argsort_perm.
  - rewrite sort_indices_perm. symmetry. apply Permutation_rev.
Qed.

Lemma reversing_argsort_sorted v :
  StronglySorted (key_le v) (reversing_argsort v).
Proof.
  unfold reversing_argsort. destruct (length v <=? 3)%nat.
  - apply stable_argsort_sorted.
  - apply sort_indices_sorted.
Qed.

Lemma reversing_argsort_short v :
  (length v <= 3)%nat -> reversing_argsort v = stable_argsort v.
Proof.
  intros H. unfold reversing_argsort. apply Nat.leb_le in H. now rewrite H.
Qed.

Lemma descending_difference_perm n s :
  Permutation (descending_difference n s) (ascending_difference n s).
Proof.
  unfold descending_difference. destruct (n <=? 8)%nat; [reflexivity|].
  symmetry. apply Permutation_rev.
Qed.

Lemma descending_difference_small n s :
  (n <= 8)%nat -> descending_difference n s = ascending_difference n s.
Proof.
  intros H. unfold descending_difference. apply Nat.leb_le in H.
  now rewrite H.
Qed.

(** The platform is not determined by its laws: this one orders equal values
    and unused indices the other way round where the laws leave it free. *)
Definition reversing_platform : Platform :=
  {| argsort := reversing_argsort;
     argsort_perm := reversing_argsort_perm;
     argsort_sorted := reversing_argsort_sorted;
     argsort_short := reversing_argsort_short;
     range_difference := descending_difference;
     range_difference_perm := descending_difference_perm;
     range_difference_small := descending_difference_small |}.

(** * The tracker on any platform *)

Section AnyPlatform.

Context {platform : Platform}.

Lemma argsort_NoDup v : NoDup (argsort v).
Proof.
  eapply Permutation_NoDup; [symmetry; apply argsort_perm | apply seq_NoDup].
Qed.

Lemma argsort_In v i : In i (argsort v) <-> (i < length v)%nat.
Proof.
  split; intros H.
  - eapply Permutation_in in H; [|apply argsort_perm].
    apply in_seq in H. lia.
  - eapply Permutation_in; [symmetry; apply argsort_perm|].
    apply in_seq. lia.
Qed.

Lemma argsort_length v : length (argsort v) = length v.
Proof. rewrite (Permutation_length (argsort_perm v)). apply length_seq. Qed.

Lemma range_difference_In n s i :
  In i (range_difference n s) <-> (i < n)%nat /\ ~ In i s.
Proof.
  rewrite <- ascending_difference_In. split; apply Permutation_in;
    [|symmetry]; apply range_difference_perm.
Qed.

Lemma range_difference_NoDup n s : NoDup (range_difference n s).
Proof.
  eapply Permutation_NoDup;
    [symmetry; apply range_difference_perm | apply ascending_difference_NoDup].
Qed.

(** * Facts about the methods *)

Import OrderedDict OrderedDictFacts.

Lemma delitem_setitem {V : Type} (d : OrderedDict.t V) k v :
  delitem (setitem d k v) k = delitem d k.
Proof.
  induction d as [|[k' v'] d IH]; simpl.
  - now rewrite Z.eqb_refl.
  - destruct (Z.eqb_spec k k') as [->|N]; simpl.
    + now rewrite Z.eqb_refl.
    + destruct (Z.eqb_spec k k'); [contradiction | now rewrite IH].
Qed.

Lemma register_run c s :
  register c s =
  (Return tt,
   {| nextObjectID := nextObjectID s + 1;
      objectsTracked := setitem (objectsTracked s) (nextObjectID s) c;
      disappeared := setitem (disappeared s) (nextObjectID s) 0;
      maxDisappeared := maxDisappeared s |}).
Proof. reflexivity. Qed.

Lemma mark_disappeared_run objectID m s :
  getitem (disappeared s) objectID = Some m ->
  In objectID (keys (objectsTracked s)) ->
  mark_disappeared objectID s = (Return tt, lose objectID m s).
Proof.
  intros Hm Hin.
  unfold mark_disappeared, disappeared_increment, disappeared_getitem,
    disappeared_setitem, bind, get_self, put_self, ret, lose; simpl.
  rewrite Hm; simpl. rewrite getitem_setitem_same; simpl.
  destruct (m + 1 >? maxDisappeared s); [|reflexivity].
  unfold deregister, objectsTracked_delitem, disappeared_delitem, bind,
    get_self, put_self; simpl.
  apply contains_In in Hin. rewrite Hin; simpl.
  assert (contains (setitem (disappeared s) objectID (m + 1)) objectID = true)
    as -> by (apply contains_In, keys_setitem_incl; now right).
  now rewrite delitem_setitem.
Qed.

Lemma ids_from_seq n len :
  ids_from n len = map (fun i => n + Z.of_nat i) (seq 0 len).
Proof.
  revert n. induction len as [|len IH]; intros n; [reflexivity|].
  cbn [ids_from seq map]. rewrite IH, <- seq_shift, map_map. f_equal.
  - lia.
  - apply map_ext. intros i. lia.
Qed.

Lemma ids_from_length n len : length (ids_from n len) = len.
Proof. revert n. induction len; intros; simpl; auto. Qed.

Lemma ids_from_In n len k : In k (ids_from n len) <-> n <= k < n + Z.of_nat len.
Proof.
  revert n. induction len as [|len IH]; intros n; cbn [ids_from In].
  - lia.
  - rewrite IH. lia.
Qed.

(** Registering the centroids [cs] one after the other on a tracker whose ids
    are all below [nextObjectID] appends them under consecutive fresh ids. *)
Lemma for_each_register cs : forall s,
  Forall (fun k => k < nextObjectID s) (keys (objectsTracked s)) ->
  Forall (fun k => k < nextObjectID s) (keys (disappeared s)) ->
  for_each cs register s =
  (Return tt,
   {| nextObjectID := nextObjectID s + Z.of_nat (length cs);
      objectsTracked :=
        objectsTracked s ++ combine (ids_from (nextObjectID s) (length cs)) cs;
      disappeared :=
        disappeared s
        ++ map (fun k => (k, 0)) (ids_from (nextObjectID s) (length cs));
      maxDisappeared := maxDisappeared s |}).
Proof.
  induction cs as [|c cs IH]; intros s Ht Hd.
  - simpl. rewrite !app_nil_r, Z.add_0_r. now destruct s.
  - cbn [for_each]. unfold bind at 1. rewrite register_run.
    rewrite IH; cbn [nextObjectID objectsTracked disappeared maxDisappeared].
    + assert (~ In (nextObjectID s) (keys (objectsTracked s))) as N1.
      { intros H. rewrite Forall_forall in Ht. apply Ht in H. lia. }
      assert (~ In (nextObjectID s) (keys (disappeared s))) as N2.
      { intros H. rewrite Forall_forall in Hd. apply Hd in H. lia. }
      rewrite !setitem_fresh by assumption.
      cbn [length ids_from combine map]. rewrite <- !app_assoc. simpl.
      do 2 f_equal. lia.
    + apply Forall_forall. intros k Hk. apply keys_setitem_incl in Hk.
      rewrite Forall_forall in Ht. destruct Hk as [Hk| ->]; [apply Ht in Hk|]; lia.
    + apply Forall_forall. intros k Hk. apply keys_setitem_incl in Hk.
      rewrite Forall_forall in Hd. destruct Hk as [Hk| ->]; [apply Hd in Hk|]; lia.
Qed.

(** ** The walk over the pairs *)

Lemma list_getitem_run {A : Type} (l : list A) (i : nat) (d : A) s :
  (i < length l)%nat -> list_getitem l i s = (Return (nth i l d), s).
Proof.
  intros H. unfold list_getitem. now rewrite (nth_error_nth' l d H).
Qed.

Lemma NoDup_map_nth {A : Type} (l : list A) (d : A) (rows : list nat) :
  NoDup l -> NoDup rows -> Forall (fun r => (r < length l)%nat) rows ->
  NoDup (map (fun r => nth r l d) rows).
Proof.
  intros Hl Hrows Hlt. induction Hrows as [|r rows Hr Hrows IH]; simpl.
  - constructor.
  - inversion Hlt as [|? ? Hr_lt Hlt']; subst. constructor; [|now apply IH].
    intros Hin. apply in_map_iff in Hin. destruct Hin as (r' & E & Hr').
    rewrite Forall_forall in Hlt'.
    apply (proj1 (NoDup_nth l d) Hl) in E; [congruence | now apply Hlt' | assumption].
Qed.

Lemma accepted_sound pairs : forall usedRows usedCols rc,
  In rc (accepted pairs usedRows usedCols) ->
  In rc pairs /\ ~ In (fst rc) usedRows /\ ~ In (snd rc) usedCols.
Proof.
  induction pairs as [|[row col] pairs IH]; intros uR uC rc H; simpl in H.
  - contradiction.
  - destruct (mem row uR || mem col uC) eqn:E.
    + apply IH in H. simpl. tauto.
    + apply orb_false_iff in E. destruct E as [E1 E2].
      apply mem_false in E1, E2.
      destruct H as [<- | H]; [simpl; tauto|].
      apply IH in H. simpl in *. tauto.
Qed.

Lemma accepted_NoDup pairs : forall usedRows usedCols,
  NoDup (map fst (accepted pairs usedRows usedCols))
  /\ NoDup (map snd (accepted pairs usedRows usedCols)).
Proof.
  induction pairs as [|[row col] pairs IH]; intros uR uC; simpl.
  - split; constructor.
  - destruct (mem row uR || mem col uC); [apply IH|].
    destruct (IH (row :: uR) (col :: uC)) as [H1 H2].
    simpl. split; constructor; try assumption.
    + intros Hin. apply in_map_iff in Hin. destruct Hin as (rc & E & Hin).
      apply accepted_sound in Hin. simpl in Hin. intuition congruence.
    + intros Hin. apply in_map_iff in Hin. destruct Hin as (rc & E & Hin).
      apply accepted_sound in Hin. simpl in Hin. intuition congruence.
Qed.

(** When the rows of the pairs are distinct and unused, the walk accepts
    exactly the pairs whose column is unused and not the column of an
    earlier pair. *)
Lemma accepted_first pairs : forall usedRows usedCols,
  NoDup (map fst pairs) ->
  (forall r, In r (map fst pairs) -> ~ In r usedRows) ->
  forall before row col after,
    pairs = before ++ (row, col) :: after ->
    (In (row, col) (accepted pairs usedRows usedCols)
     <-> ~ In col usedCols /\ ~ In col (map snd before)).
Proof.
  induction pairs as [|[r0 c0] pairs IH];
    intros uR uC ND Hfree before row col after E.
  - destruct before; discriminate.
  - simpl in ND. inversion ND as [|? ? Hr0 ND']; subst.
    assert (mem r0 uR = false) as Er0
        by (apply mem_false, Hfree; simpl; auto).
    cbn [accepted]. rewrite Er0, orb_false_l.
    destruct before as [|rc0 before]; simpl in E.
    + injection E as -> -> ->. simpl.
      destruct (mem col uC) eqn:Ec.
      * apply mem_In in Ec. split; [|tauto].
        intros Hin. apply accepted_sound in Hin.
        exfalso. apply Hr0. apply in_map_iff. exists (row, col). tauto.
      * apply mem_false in Ec. simpl. tauto.
    + injection E as <- E1.
      assert (In row (map fst pairs)) as Hrow.
      { rewrite E1, map_app, in_app_iff. simpl. auto. }
      assert (row <> r0) as Hne by congruence.
      destruct (mem c0 uC) eqn:Ec.
      * apply mem_In in Ec.
        rewrite (IH uR uC ND' (fun r H => Hfree r (or_intror H))
                    before row col after E1).
        simpl. intuition congruence.
      * apply mem_false in Ec. simpl.
        assert (forall r, In r (map fst pairs) -> ~ In r (r0 :: uR)) as Hfree'.
        { intros r Hr [<-|Hin]; [contradiction|].
          revert Hin. apply Hfree. simpl. auto. }
        rewrite (IH (r0 :: uR) (c0 :: uC) ND' Hfree' before row col after E1).
        simpl. intuition congruence.
Qed.

Lemma match_pairs_run objectIDs inputCentroid pairs :
  forall usedRows usedCols s,
    Forall (fun rc => (fst rc < length objectIDs)%nat
                      /\ (snd rc < length inputCentroid)%nat) pairs ->
    match_pairs objectIDs inputCentroid pairs usedRows usedCols s
    = (Return (rev (map fst (accepted pairs usedRows usedCols)) ++ usedRows,
               rev (map snd (accepted pairs usedRows usedCols)) ++ usedCols),
       assign_all objectIDs inputCentroid
                  (accepted pairs usedRows usedCols) s).
Proof.
  induction pairs as [|[row col] pairs IH]; intros uR uC s Hlt.
  - reflexivity.
  - inversion Hlt as [|? ? [Hr Hc] Hlt']; subst. simpl in Hr, Hc.
    cbn [match_pairs accepted].
    destruct (mem row uR || mem col uC); [now apply IH|].
    unfold bind at 1. rewrite (list_getitem_run objectIDs row 0) by assumption.
    unfold bind at 1.
    rewrite (list_getitem_run inputCentroid col (0, 0)) by assumption.
    change (objectsTracked_setitem ?k ?c ;; (disappeared_setitem ?k' 0 ;; ?rest))
      with (objectsTracked_setitem k c ;; (disappeared_setitem k' 0 ;; rest)).
    unfold bind at 1. unfold objectsTracked_setitem at 1.
    unfold bind at 1. cbn [get_self put_self].
    unfold bind at 1. unfold disappeared_setitem at 1.
    unfold bind at 1. cbn [get_self put_self].
    cbn [nextObjectID objectsTracked disappeared maxDisappeared].
    rewrite IH by assumption.
    cbn [map rev fst snd]. rewrite <- !app_assoc. reflexivity.
Qed.

Section AssignAll.

Variables (objectIDs : list Z) (inputCentroid : list Centroid).

Lemma assign_all_cons rc pairs s :
  assign_all objectIDs inputCentroid (rc :: pairs) s
  = assign_all objectIDs inputCentroid pairs
      (assign (id_of_pair objectIDs rc) (nth (snd rc) inputCentroid (0, 0)) s).
Proof. reflexivity. Qed.

Lemma assign_all_fields pairs : forall s,
  nextObjectID (assign_all objectIDs inputCentroid pairs s) = nextObjectID s
  /\ maxDisappeared (assign_all objectIDs inputCentroid pairs s)
     = maxDisappeared s.
Proof.
  induction pairs as [|rc pairs IH]; intros s; [split; reflexivity|].
  rewrite assign_all_cons.
  destruct (IH (assign (id_of_pair objectIDs rc) (nth (snd rc) inputCentroid (0, 0)) s))
    as [H1 H2].
  now rewrite H1, H2.
Qed.

Lemma assign_all_keys pairs : forall s,
  (forall rc, In rc pairs ->
              In (id_of_pair objectIDs rc) (keys (objectsTracked s))
              /\ In (id_of_pair objectIDs rc) (keys (disappeared s))) ->
  keys (objectsTracked (assign_all objectIDs inputCentroid pairs s))
  = keys (objectsTracked s)
  /\ keys (disappeared (assign_all objectIDs inputCentroid pairs s))
     = keys (disappeared s).
Proof.
  induction pairs as [|rc pairs IH]; intros s Hin; [split; reflexivity|].
  rewrite assign_all_cons.
  destruct (Hin rc (or_introl eq_refl)) as [Ht Hd].
  set (s1 := assign (id_of_pair objectIDs rc) (nth (snd rc) inputCentroid (0, 0)) s).
  assert (keys (objectsTracked s1) = keys (objectsTracked s)) as E1
      by (apply keys_setitem_In; exact Ht).
  assert (keys (disappeared s1) = keys (disappeared s)) as E2
      by (apply keys_setitem_In; exact Hd).
  destruct (IH s1) as [H1 H2].
  { intros rc' Hrc'. rewrite E1, E2. apply Hin. now right. }
  now rewrite H1, H2.
Qed.

Lemma assign_all_other pairs : forall s k,
  ~ In k (map (id_of_pair objectIDs) pairs) ->
  getitem (objectsTracked (assign_all objectIDs inputCentroid pairs s)) k
  = getitem (objectsTracked s) k
  /\ getitem (disappeared (assign_all objectIDs inputCentroid pairs s)) k
     = getitem (disappeared s) k.
Proof.
  induction pairs as [|rc pairs IH]; intros s k Hk; [split; reflexivity|].
  rewrite assign_all_cons. simpl in Hk.
  destruct (IH (assign (id_of_pair objectIDs rc) (nth (snd rc) inputCentroid (0, 0)) s) k)
    as [H1 H2]; [tauto|].
  rewrite H1, H2. unfold assign; simpl.
  rewrite !getitem_setitem_other by tauto. auto.
Qed.

Lemma assign_all_matched pairs : forall s row col,
  NoDup (map (id_of_pair objectIDs) pairs) -> In (row, col) pairs ->
  getitem (objectsTracked (assign_all objectIDs inputCentroid pairs s))
          (nth row objectIDs 0)
  = Some (nth col inputCentroid (0, 0))
  /\ getitem (disappeared (assign_all objectIDs inputCentroid pairs s))
             (nth row objectIDs 0)
     = Some 0.
Proof.
  induction pairs as [|rc pairs IH]; intros s row col ND Hin; [contradiction|].
  rewrite assign_all_cons.
  simpl in ND. inversion ND as [|? ? Hrc ND']; subst.
  destruct Hin as [-> | Hin].
  - destruct (assign_all_other pairs
                (assign (id_of_pair objectIDs (row, col)) (nth col inputCentroid (0, 0)) s)
                (id_of_pair objectIDs (row, col)) Hrc) as [H1 H2].
    unfold id_of_pair in *. cbn [fst snd] in *.
    rewrite H1, H2. unfold assign; simpl.
    now rewrite !getitem_setitem_same.
  - now apply (IH _ row col ND').
Qed.

End AssignAll.

(** ** Losing an object *)

Lemma wf_getitem s k :
  wf s -> In k (keys (objectsTracked s)) ->
  exists m, getitem (disappeared s) k = Some m.
Proof. intros (E & _) H. apply getitem_In. now rewrite <- E. Qed.

Section Lose.

Variables (objectID m : Z) (s : FaceTracker).

Lemma lose_fields :
  nextObjectID (lose objectID m s) = nextObjectID s
  /\ maxDisappeared (lose objectID m s) = maxDisappeared s.
Proof. unfold lose. destruct (m + 1 >? maxDisappeared s); auto. Qed.

Lemma lose_other k :
  k <> objectID ->
  getitem (objectsTracked (lose objectID m s)) k = getitem (objectsTracked s) k
  /\ getitem (disappeared (lose objectID m s)) k = getitem (disappeared s) k.
Proof.
  intros N. unfold lose. destruct (m + 1 >? maxDisappeared s); simpl.
  - now rewrite !getitem_delitem_other by congruence.
  - now rewrite getitem_setitem_other by congruence.
Qed.

Lemma lose_same :
  if m + 1 >? maxDisappeared s
  then getitem (objectsTracked (lose objectID m s)) objectID = None
       /\ getitem (disappeared (lose objectID m s)) objectID = None
  else getitem (objectsTracked (lose objectID m s)) objectID
       = getitem (objectsTracked s) objectID
       /\ getitem (disappeared (lose objectID m s)) objectID = Some (m + 1).
Proof.
  unfold lose. destruct (m + 1 >? maxDisappeared s); simpl.
  - now rewrite !getitem_delitem_same.
  - now rewrite getitem_setitem_same.
Qed.

Lemma lose_keys k :
  In k (keys (objectsTracked (lose objectID m s))) ->
  In k (keys (objectsTracked s)).
Proof.
  unfold lose. destruct (m + 1 >? maxDisappeared s); simpl; [|auto].
  rewrite keys_delitem_In. tauto.
Qed.

Lemma lose_wf :
  wf s -> In objectID (keys (objectsTracked s)) -> wf (lose objectID m s).
Proof.
  intros (E & ND & B) Hin. unfold lose, wf.
  destruct (m + 1 >? maxDisappeared s); simpl.
  - rewrite !keys_delitem, E. repeat split.
    + apply NoDup_filter. now rewrite <- E.
    + rewrite <- E. apply Forall_forall. intros k Hk.
      apply filter_In in Hk. rewrite Forall_forall in B. now apply B.
  - rewrite keys_setitem_In by now rewrite <- E. auto.
Qed.

End Lose.

(** ** The loop over the unmatched rows (lines 132-140) *)

Lemma for_each_lost objectIDs rows : forall s,
  wf s ->
  Forall (fun r => (r < length objectIDs)%nat) rows ->
  NoDup (map (fun r => nth r objectIDs 0) rows) ->
  (forall r, In r rows -> In (nth r objectIDs 0) (keys (objectsTracked s))) ->
  exists s',
    for_each rows (fun row => objectID <- list_getitem objectIDs row ;;
                              mark_disappeared objectID) s
    = (Return tt, s')
    /\ wf s'
    /\ nextObjectID s' = nextObjectID s
    /\ maxDisappeared s' = maxDisappeared s
    /\ (forall k, In k (keys (objectsTracked s')) ->
                  In k (keys (objectsTracked s)))
    /\ (forall k, ~ In k (map (fun r => nth r objectIDs 0) rows) ->
          getitem (objectsTracked s') k = getitem (objectsTracked s) k
          /\ getitem (disappeared s') k = getitem (disappeared s) k)
    /\ (forall k m, In k (map (fun r => nth r objectIDs 0) rows) ->
          getitem (disappeared s) k = Some m ->
          if m + 1 >? maxDisappeared s
          then getitem (objectsTracked s') k = None
               /\ getitem (disappeared s') k = None
          else getitem (objectsTracked s') k = getitem (objectsTracked s) k
               /\ getitem (disappeared s') k = Some (m + 1)).
Proof.
  induction rows as [|row rows IH]; intros s Hwf Hlt ND Hin.
  - exists s. split; [reflexivity|]. split; [exact Hwf|].
    repeat split; auto; try (intros ? ? []).
  - inversion Hlt as [|? ? Hrow Hlt']; subst.
    simpl in ND. inversion ND as [|? ? Hfresh ND']; subst.
    remember (nth row objectIDs 0) as k0 eqn:Ek0.
    assert (In k0 (keys (objectsTracked s))) as Hk0
        by (rewrite Ek0; apply Hin; now left).
    destruct (wf_getitem s k0 Hwf Hk0) as (m0 & Hm0).
    destruct (lose_fields k0 m0 s) as [Fn Fm].
    destruct (IH (lose k0 m0 s)) as (s' & Hrun & Hwf' & Hn & Hm & Hk & Ho & Hl);
      try assumption.
    { now apply lose_wf. }
    { intros r Hr.
      assert (nth r objectIDs 0 <> k0) as N.
      { intros E. apply Hfresh. apply in_map_iff. eauto. }
      apply getitem_In. rewrite (proj1 (lose_other k0 m0 s _ N)).
      apply getitem_In. apply Hin. now right. }
    exists s'. split.
    { cbn [for_each]. unfold bind at 1. unfold bind at 1.
      rewrite (list_getitem_run objectIDs row 0) by assumption.
      rewrite <- Ek0. rewrite (mark_disappeared_run k0 m0) by assumption.
      exact Hrun. }
    split; [assumption|]. split; [congruence|]. split; [congruence|].
    split; [intros k H; eapply lose_keys; eauto|].
    split.
    + intros k Hk'. simpl in Hk'.
      destruct (Ho k) as [H1 H2]; [tauto|].
      destruct (lose_other k0 m0 s k) as [H3 H4]; [intuition congruence|].
      split; congruence.
    + intros k m Hk' Hgm. simpl in Hk'. rewrite Fm in Hl.
      destruct (Z.eq_dec k k0) as [->|N].
      * assert (m = m0) by congruence. subst m.
        destruct (Ho k0 Hfresh) as [H1 H2]. rewrite H1, H2.
        apply lose_same.
      * destruct (lose_other k0 m0 s k N) as [H3 H4].
        specialize (Hl k m). rewrite H3, H4 in Hl. apply Hl; [|assumption].
        destruct Hk' as [E|Hk']; [congruence | assumption].
Qed.

(** ** The loop over the keys of [self.disappeared] (lines 57-62) *)

Lemma for_each_disappeared_key_spec snapshot pending : forall s,
  wf s -> incl pending snapshot -> NoDup pending ->
  exists o s',
    for_each_disappeared_key snapshot pending mark_disappeared s = (o, s')
    /\ wf s'
    /\ nextObjectID s' = nextObjectID s
    /\ maxDisappeared s' = maxDisappeared s
    /\ (forall k, In k (keys (objectsTracked s')) ->
                  In k (keys (objectsTracked s)))
    /\ (o = Return tt \/ o = Raise RuntimeError)
    /\ (o = Return tt ->
        (forall k, ~ In k pending ->
           getitem (objectsTracked s') k = getitem (objectsTracked s) k
           /\ getitem (disappeared s') k = getitem (disappeared s) k)
        /\ (forall k m, In k pending ->
              getitem (disappeared s) k = Some m ->
              if m + 1 >? maxDisappeared s
              then getitem (objectsTracked s') k = None
                   /\ getitem (disappeared s') k = None
              else getitem (objectsTracked s') k = getitem (objectsTracked s) k
                   /\ getitem (disappeared s') k = Some (m + 1))).
Proof.
  induction pending as [|k0 pending IH]; intros s Hwf Hincl ND.
  - exists (Return tt), s. split; [reflexivity|]. split; [exact Hwf|].
    repeat split; auto; try (intros ? ? []).
  - cbn [for_each_disappeared_key]. unfold bind at 1. cbn [get_self].
    destruct (list_eq_dec Z.eq_dec (keys (disappeared s)) snapshot) as [E|E].
    + inversion ND as [|? ? Hfresh ND']; subst.
      assert (In k0 (keys (objectsTracked s))) as Hk0.
      { destruct Hwf as (Ek & _). rewrite Ek. apply Hincl. now left. }
      destruct (wf_getitem s k0 Hwf Hk0) as (m0 & Hm0).
      destruct (lose_fields k0 m0 s) as [Fn Fm].
      destruct (IH (lose k0 m0 s)) as
          (o & s' & Hrun & Hwf' & Hn & Hm & Hk & Ho & Hret).
      { now apply lose_wf. }
      { intros k Hk. apply Hincl. now right. }
      { assumption. }
      exists o, s'. split.
      { unfold bind at 1. rewrite (mark_disappeared_run k0 m0) by assumption.
        exact Hrun. }
      split; [assumption|]. split; [congruence|]. split; [congruence|].
      split; [intros k H; eapply lose_keys; eauto|].
      split; [assumption|].
      intros Eo. destruct (Hret Eo) as [Hother Hlost]. split.
      * intros k Hk'. simpl in Hk'.
        destruct (Hother k) as [H1 H2]; [tauto|].
        destruct (lose_other k0 m0 s k) as [H3 H4]; [intuition congruence|].
        split; congruence.
      * intros k m Hk' Hgm. simpl in Hk'. rewrite Fm in Hlost.
        destruct (Z.eq_dec k k0) as [->|N].
        -- assert (m = m0) by congruence. subst m.
           destruct (Hother k0 Hfresh) as [H1 H2]. rewrite H1, H2.
           apply lose_same.
        -- destruct (lose_other k0 m0 s k N) as [H3 H4].
           specialize (Hlost k m). rewrite H3, H4 in Hlost.
           apply Hlost; [|assumption].
           destruct Hk' as [E'|Hk']; [congruence | assumption].
    + exists (Raise RuntimeError), s. split; [reflexivity|].
      split; [exact Hwf|]. repeat split; auto; discriminate.
Qed.

(** ** The loop over the unmatched columns (lines 145-146) *)

Lemma for_each_register_cols inputCentroid cols : forall s,
  Forall (fun c => (c < length inputCentroid)%nat) cols ->
  for_each cols (fun col => centroid <- list_getitem inputCentroid col ;;
                            register centroid) s
  = for_each (map (fun col => nth col inputCentroid (0, 0)) cols) register s.
Proof.
  induction cols as [|col cols IH]; intros s Hlt; [reflexivity|].
  inversion Hlt as [|? ? Hcol Hlt']; subst.
  cbn [for_each map]. unfold bind at 1. unfold bind at 1.
  rewrite (list_getitem_run inputCentroid col (0, 0)) by assumption.
  unfold bind at 2. rewrite !register_run. now apply IH.
Qed.

Lemma getitem_app_l {V : Type} (d d' : OrderedDict.t V) k :
  In k (keys d) -> getitem (d ++ d') k = getitem d k.
Proof.
  induction d as [|[k' v'] d IH]; simpl; [contradiction|].
  intros H. destruct (Z.eqb_spec k k'); [reflexivity|].
  apply IH. destruct H; [congruence | assumption].
Qed.

Lemma getitem_app_r {V : Type} (d d' : OrderedDict.t V) k :
  ~ In k (keys d) -> getitem (d ++ d') k = getitem d' k.
Proof.
  induction d as [|[k' v'] d IH]; simpl; [reflexivity|].
  intros H. destruct (Z.eqb_spec k k') as [->|N].
  - exfalso. apply H. now left.
  - apply IH. intros H'. apply H. now right.
Qed.

(** ** The branch with objects and detections *)

Lemma cdist_length XA XB : length (cdist XA XB) = length XA.
Proof. apply length_map. Qed.

Lemma cdist_nth XA XB r :
  (r < length XA)%nat ->
  nth r (cdist XA XB) [] = map (sqdist (nth r XA (0, 0))) XB.
Proof.
  intros H. unfold cdist.
  rewrite (nth_indep _ [] (map (sqdist (0, 0)) XB))
    by now rewrite length_map.
  apply (map_nth (fun a => map (sqdist a) XB)).
Qed.

Lemma row_order_perm objDist :
  Permutation (row_order objDist) (seq 0 (length objDist)).
Proof.
  unfold row_order. rewrite <- (length_map row_min objDist).
  apply argsort_perm.
Qed.

Lemma row_order_In objDist r :
  In r (row_order objDist) <-> (r < length objDist)%nat.
Proof.
  unfold row_order. rewrite argsort_In. now rewrite length_map.
Qed.

Lemma col_choice_eq objDist rows :
  Forall (fun r => (r < length objDist)%nat) rows ->
  col_choice objDist rows = map (fun r => argmin (nth r objDist [])) rows.
Proof.
  intros H. unfold col_choice. apply map_ext_in. intros r Hr.
  rewrite Forall_forall in H. specialize (H r Hr).
  rewrite (nth_indep _ 0%nat (argmin [])) by now rewrite length_map.
  apply (map_nth argmin).
Qed.

Section Branch.

Variables (s : FaceTracker) (inputCentroid : list Centroid).
Hypothesis Hwf : wf s.
Hypothesis Hdetections : inputCentroid <> [].

Lemma pairs_of_fst :
  map fst (pairs_of s inputCentroid)
  = row_order (cdist (values (objectsTracked s)) inputCentroid).
Proof.
  unfold pairs_of. cbv zeta.
  set (rows := row_order _).
  assert (length (col_choice (cdist (values (objectsTracked s)) inputCentroid)
                             rows) = length rows) as E
      by (unfold col_choice; apply length_map).
  clear -E. revert E. generalize (col_choice (cdist (values (objectsTracked s))
                                                   inputCentroid) rows).
  induction rows as [|r rows IH]; intros [|c cols] E; try discriminate;
    simpl; [reflexivity|]. f_equal. apply IH. now injection E.
Qed.

Lemma pairs_of_valid rc :
  In rc (pairs_of s inputCentroid) ->
  (fst rc < length (keys (objectsTracked s)))%nat
  /\ (snd rc < length inputCentroid)%nat
  /\ snd rc = argmin (map (sqdist (nth (fst rc) (values (objectsTracked s))
                                       (0, 0)))
                          inputCentroid).
Proof.
  unfold pairs_of. cbv zeta.
  set (objDist := cdist (values (objectsTracked s)) inputCentroid).
  assert (forall r, In r (row_order objDist) ->
                    (r < length (values (objectsTracked s)))%nat) as Hrows.
  { intros r Hr. apply row_order_In in Hr. unfold objDist in Hr.
    now rewrite cdist_length in Hr. }
  rewrite col_choice_eq.
  2:{ apply Forall_forall. intros r Hr. unfold objDist.
      rewrite cdist_length. now apply Hrows. }
  destruct rc as [r c]. intros Hin.
  assert (In r (row_order objDist)) as Hr by (eapply in_combine_l; eauto).
  assert (c = argmin (nth r objDist [])) as Hc.
  { clear -Hin. revert Hin. induction (row_order objDist) as [|r' l IH];
      simpl; [tauto|]. intros [E|H]; [congruence | auto]. }
  specialize (Hrows r Hr). unfold objDist in Hc.
  rewrite cdist_nth in Hc by assumption.
  unfold keys, values in *. rewrite length_map in *. simpl.
  split; [assumption|]. split; [|assumption].
  subst c.
  destruct (argmin_spec (map (sqdist (nth r (map snd (objectsTracked s))
                                          (0, 0))) inputCentroid))
    as (H & _).
  - destruct inputCentroid; [congruence | discriminate].
  - now rewrite length_map in H.
Qed.

Lemma pairs_of_NoDup : NoDup (map fst (pairs_of s inputCentroid)).
Proof.
  rewrite pairs_of_fst. eapply Permutation_NoDup.
  - symmetry. apply row_order_perm.
  - apply seq_NoDup.
Qed.

Lemma matching_valid rc :
  In rc (matching s inputCentroid) ->
  In rc (pairs_of s inputCentroid)
  /\ (fst rc < length (keys (objectsTracked s)))%nat
  /\ (snd rc < length inputCentroid)%nat.
Proof.
  intros H. apply accepted_sound in H. destruct H as (H & _).
  split; [assumption|]. apply pairs_of_valid in H. tauto.
Qed.

Lemma matching_ids_NoDup :
  NoDup (map (id_of_pair (keys (objectsTracked s)))
             (matching s inputCentroid)).
Proof.
  destruct (accepted_NoDup (pairs_of s inputCentroid) [] []) as [ND _].
  fold (matching s inputCentroid) in ND.
  replace (map (id_of_pair (keys (objectsTracked s)))
               (matching s inputCentroid))
    with (map (fun r => nth r (keys (objectsTracked s)) 0)
              (map fst (matching s inputCentroid)))
    by (rewrite map_map; reflexivity).
  apply NoDup_map_nth.
  - apply Hwf.
  - exact ND.
  - apply Forall_forall. intros r Hr. apply in_map_iff in Hr.
    destruct Hr as (rc & <- & Hrc). now apply matching_valid in Hrc.
Qed.

Lemma match_detections_run :
  objectsTracked s <> [] ->
  match_detections inputCentroid s
  = settle_unmatched (keys (objectsTracked s)) inputCentroid
      (length (objectsTracked s)) (length inputCentroid)
      (rev (map fst (matching s inputCentroid)))
      (rev (map snd (matching s inputCentroid)))
      (after_matching s inputCentroid).
Proof.
  intros Htracked. unfold match_detections.
  unfold bind at 1. cbn [get_self].
  assert ((0 <? length (values (objectsTracked s)) * length inputCentroid)%nat
          = true) as ->.
  { apply Nat.ltb_lt. unfold values. rewrite length_map.
    destruct (objectsTracked s); [congruence|].
    destruct inputCentroid; [congruence|]. simpl. lia. }
  unfold bind at 1. fold (pairs_of s inputCentroid).
  rewrite match_pairs_run.
  - rewrite !app_nil_r. unfold values. rewrite length_map. reflexivity.
  - apply Forall_forall. intros rc Hrc. apply pairs_of_valid in Hrc. tauto.
Qed.

(** The tracker after the walk: same ids, same counter. *)
Lemma after_matching_keys :
  keys (objectsTracked (after_matching s inputCentroid))
  = keys (objectsTracked s)
  /\ keys (disappeared (after_matching s inputCentroid))
     = keys (disappeared s).
Proof.
  apply assign_all_keys. intros rc Hrc. apply matching_valid in Hrc.
  destruct Hrc as (_ & Hr & _). destruct Hwf as (E & _).
  rewrite <- E. split; apply nth_In; exact Hr.
Qed.

Lemma after_matching_wf : wf (after_matching s inputCentroid).
Proof.
  destruct after_matching_keys as [E1 E2].
  destruct (assign_all_fields (keys (objectsTracked s)) inputCentroid
              (matching s inputCentroid) s) as [Fn _].
  fold (after_matching s inputCentroid) in Fn.
  unfold wf. rewrite E1, E2, Fn. exact Hwf.
Qed.

(** An object on an accepted row is matched, any other object is as it
    was. *)
Lemma after_matching_row r :
  (r < length (keys (objectsTracked s)))%nat ->
  let k := nth r (keys (objectsTracked s)) 0 in
  (forall c, In (r, c) (matching s inputCentroid) ->
     getitem (objectsTracked (after_matching s inputCentroid)) k
     = Some (nth c inputCentroid (0, 0))
     /\ getitem (disappeared (after_matching s inputCentroid)) k = Some 0)
  /\ (~ In r (map fst (matching s inputCentroid)) ->
      getitem (objectsTracked (after_matching s inputCentroid)) k
      = getitem (objectsTracked s) k
      /\ getitem (disappeared (after_matching s inputCentroid)) k
         = getitem (disappeared s) k).
Proof.
  intros Hr k. split.
  - intros c Hin. apply assign_all_matched; [apply matching_ids_NoDup | exact Hin].
  - intros Hnot. apply assign_all_other. intros Hin.
    apply in_map_iff in Hin. destruct Hin as (rc & E & Hrc).
    apply Hnot. apply in_map_iff. exists rc. split; [|assumption].
    apply matching_valid in Hrc. destruct Hrc as (_ & Hr' & _).
    destruct Hwf as (_ & ND & _).
    apply (proj1 (NoDup_nth (keys (objectsTracked s)) 0) ND); assumption.
Qed.

End Branch.

(** ** Registrations *)

Lemma ids_from_NoDup n len : NoDup (ids_from n len).
Proof.
  revert n. induction len as [|len IH]; intros n; simpl; constructor.
  - rewrite ids_from_In. lia.
  - apply IH.
Qed.

Lemma keys_combine_ids (ids : list Z) (cs : list Centroid) :
  length ids = length cs -> keys (combine ids cs) = ids.
Proof.
  revert cs. induction ids as [|k ids IH]; intros [|c cs] E;
    try discriminate; simpl; [reflexivity|].
  f_equal. apply IH. now injection E.
Qed.

Lemma keys_zero_counters (ids : list Z) :
  keys (map (fun k => (k, 0)) ids) = ids.
Proof. unfold keys. rewrite map_map. simpl. apply map_id. Qed.

Lemma for_each_register_all cs s :
  wf s -> for_each cs register s = (Return tt, register_all cs s).
Proof.
  intros (E & _ & B). apply for_each_register; [exact B | now rewrite <- E].
Qed.

Section RegisterAll.

Variables (cs : list Centroid) (s : FaceTracker).
Hypothesis Hwf : wf s.

Lemma register_all_keys :
  keys (objectsTracked (register_all cs s))
  = keys (objectsTracked s) ++ ids_from (nextObjectID s) (length cs)
  /\ keys (disappeared (register_all cs s))
     = keys (disappeared s) ++ ids_from (nextObjectID s) (length cs).
Proof.
  unfold register_all, keys; simpl. rewrite !map_app. split; f_equal.
  - apply keys_combine_ids, ids_from_length.
  - apply keys_zero_counters.
Qed.

Lemma register_all_wf : wf (register_all cs s).
Proof.
  destruct Hwf as (E & ND & B). destruct register_all_keys as [E1 E2].
  unfold wf. rewrite E1, E2, E. rewrite Forall_forall in B.
  repeat split.
  - rewrite <- E. apply NoDup_app; [assumption | apply ids_from_NoDup | ].
    intros k Hk Hk'. apply B in Hk. apply ids_from_In in Hk'. lia.
  - rewrite <- E. apply Forall_forall. intros k Hk. simpl.
    apply in_app_iff in Hk. destruct Hk as [Hk|Hk].
    + apply B in Hk. lia.
    + apply ids_from_In in Hk. lia.
Qed.

Lemma register_all_later : later s (register_all cs s).
Proof.
  destruct register_all_keys as [E1 _]. unfold later. rewrite E1. split.
  - simpl. lia.
  - intros k Hk. apply in_app_iff in Hk. destruct Hk as [Hk|Hk]; [now left|].
    right. apply ids_from_In in Hk. simpl. lia.
Qed.

Lemma register_all_old k :
  In k (keys (objectsTracked s)) ->
  getitem (objectsTracked (register_all cs s)) k = getitem (objectsTracked s) k
  /\ getitem (disappeared (register_all cs s)) k = getitem (disappeared s) k.
Proof.
  intros Hk. unfold register_all; simpl. split; apply getitem_app_l.
  - assumption.
  - destruct Hwf as (E & _). now rewrite <- E.
Qed.

End RegisterAll.

Lemma later_refl s : later s s.
Proof. split; [lia | auto]. Qed.

Lemma later_trans s1 s2 s3 : later s1 s2 -> later s2 s3 -> later s1 s3.
Proof.
  intros [N1 K1] [N2 K2]. split; [lia|].
  intros k Hk. destruct (K2 k Hk) as [H|H]; [|right; lia].
  destruct (K1 k H) as [H'|H']; [now left | right; lia].
Qed.

Lemma later_shrink s s' :
  nextObjectID s' = nextObjectID s ->
  (forall k, In k (keys (objectsTracked s')) -> In k (keys (objectsTracked s))) ->
  later s s'.
Proof. intros E H. split; [lia | auto]. Qed.

(** ** What one call of [update] does *)

Lemma update_unfold_nonempty b rect s :
  update (b :: rect) s
  = match (if (len (objectsTracked s) =? 0)%nat
           then for_each (map centroid_of (b :: rect)) register
           else match_detections (map centroid_of (b :: rect))) s with
    | (Return _, s') => (Return (objectsTracked s'), s')
    | (Raise e, s') => (Raise e, s')
    end.
Proof.
  unfold update. unfold bind at 1. cbn [get_self]. unfold bind at 1.
  destruct ((if (len (objectsTracked s) =? 0)%nat
             then for_each (map centroid_of (b :: rect)) register
             else match_detections (map centroid_of (b :: rect))) s)
    as [[u|e] s']; reflexivity.
Qed.

Lemma update_unfold_empty s :
  update [] s
  = match for_each_disappeared_key (keys (disappeared s))
            (keys (disappeared s)) mark_disappeared s with
    | (Return _, s') => (Return (objectsTracked s'), s')
    | (Raise e, s') => (Raise e, s')
    end.
Proof.
  unfold update. unfold bind at 1. cbn [get_self]. unfold bind at 1.
  destruct (for_each_disappeared_key (keys (disappeared s))
              (keys (disappeared s)) mark_disappeared s) as [[u|e] s'];
    reflexivity.
Qed.

Lemma update_spec rect s :
  wf s ->
  exists o s',
    update rect s = (o, s')
    /\ wf s'
    /\ later s s'
    /\ maxDisappeared s' = maxDisappeared s
    /\ (o = Return (objectsTracked s') \/ (rect = [] /\ o = Raise RuntimeError))
    /\ ((length rect <= length (objectsTracked s))%nat ->
        nextObjectID s' = nextObjectID s
        /\ incl (keys (objectsTracked s')) (keys (objectsTracked s)))
    /\ (o = Return (objectsTracked s') ->
        forall k c m,
          getitem (objectsTracked s) k = Some c ->
          getitem (disappeared s) k = Some m ->
          matched_by rect s' k
          \/ ((length rect <= length (objectsTracked s))%nat
              /\ lost_in s s' k c m)
          \/ ((length (objectsTracked s) < length rect)%nat
              /\ untouched_in s' k c m)).
Proof.
  intros Hwf. destruct rect as [|b rect].
  - (* no detection *)
    rewrite update_unfold_empty.
    destruct (for_each_disappeared_key_spec
                (keys (disappeared s)) (keys (disappeared s)) s Hwf)
      as (o & s' & Hrun & Hwf' & Hn & Hm & Hk & Ho & Hret).
    { apply incl_refl. }
    { destruct Hwf as (E & ND & _). now rewrite <- E. }
    rewrite Hrun.
    destruct Ho as [-> | ->].
    + exists (Return (objectsTracked s')), s'.
      split; [reflexivity|]. split; [assumption|].
      split; [now apply later_shrink|]. split; [assumption|].
      split; [now left|]. split; [intros _; split; [assumption | exact Hk]|].
      intros _ k c m Hc Hm0. right. left. split; [simpl; lia|].
      destruct (Hret eq_refl) as [_ Hlost].
      assert (In k (keys (disappeared s))) as Hin
          by (apply getitem_In; eauto).
      specialize (Hlost k m Hin Hm0). unfold lost_in.
      destruct (m + 1 >? maxDisappeared s); [assumption|].
      destruct Hlost as [H1 H2]. split; congruence.
    + exists (Raise RuntimeError), s'.
      split; [reflexivity|]. split; [assumption|].
      split; [now apply later_shrink|]. split; [assumption|].
      split; [now right|]. split; [intros _; split; [assumption | exact Hk]|].
      discriminate.
  - rewrite update_unfold_nonempty.
    set (ic := map centroid_of (b :: rect)).
    assert (ic <> []) as Hic by discriminate.
    assert (length ic = length (b :: rect)) as Elen by apply length_map.
    destruct (objectsTracked s) as [|kv tracked] eqn:Etracked.
    + (* nothing tracked: every detection is registered *)
      cbn [len length Nat.eqb]. rewrite for_each_register_all by assumption.
      exists (Return (objectsTracked (register_all ic s))), (register_all ic s).
      split; [reflexivity|]. split; [now apply register_all_wf|].
      split; [now apply register_all_later|]. split; [reflexivity|].
      split; [now left|]. split; [simpl; lia|].
      intros _ k c m Hc. discriminate Hc.
    + (* objects and detections *)
      replace (len (kv :: tracked) =? 0)%nat with false by reflexivity.
      rewrite <- Etracked.
      assert (objectsTracked s <> []) as Htr by (rewrite Etracked; discriminate).
      rewrite match_detections_run by assumption.
      set (s1 := after_matching s ic).
      set (ids := keys (objectsTracked s)).
      assert (length ids = length (objectsTracked s)) as Eids
          by apply length_map.
      pose proof (after_matching_wf s ic Hwf Hic) as Hwf1. fold s1 in Hwf1.
      destruct (after_matching_keys s ic Hwf Hic) as [Ek1 Ek1']. fold s1 in Ek1, Ek1'.
      assert (nextObjectID s1 = nextObjectID s
              /\ maxDisappeared s1 = maxDisappeared s) as [Fn1 Fm1]
          by apply assign_all_fields.
      assert (forall k c m (P : Prop),
                 getitem (objectsTracked s) k = Some c ->
                 getitem (disappeared s) k = Some m ->
                 (forall r c0, (r < length ids)%nat -> nth r ids 0 = k ->
                    In (r, c0) (matching s ic) ->
                    getitem (objectsTracked s1) k = Some (nth c0 ic (0, 0)) ->
                    getitem (disappeared s1) k = Some 0 ->
                    In (nth c0 ic (0, 0)) ic -> P) ->
                 (forall r, (r < length ids)%nat -> nth r ids 0 = k ->
                    ~ In r (map fst (matching s ic)) ->
                    getitem (objectsTracked s1) k = Some c ->
                    getitem (disappeared s1) k = Some m -> P) ->
                 P) as Hcases.
      { intros k c m P Hc Hm Hyes Hno.
        assert (In k ids) as Hk by (apply getitem_In; eauto).
        destruct (In_nth ids k 0 Hk) as (r & Hr & Enth).
        destruct (after_matching_row s ic Hwf Hic r Hr) as [Hmatched Hother].
        cbv zeta in Hmatched, Hother. fold ids s1 in Hmatched, Hother.
        rewrite Enth in Hmatched, Hother.
        destruct (in_dec Nat.eq_dec r (map fst (matching s ic))) as [Hin|Hnot].
        - apply in_map_iff in Hin. destruct Hin as ([r' c0] & E & Hin).
          simpl in E. subst r'.
          destruct (Hmatched c0 Hin) as [H1 H2].
          apply (Hyes r c0); try assumption.
          apply nth_In. apply (matching_valid s ic Hic) in Hin. apply Hin.
        - destruct (Hother Hnot) as [H1 H2].
          apply (Hno r); try assumption; congruence. }
      unfold settle_unmatched.
      destruct (length ic <=? length (objectsTracked s))%nat eqn:Ecmp.
      * (* at least as many objects as detections *)
        apply Nat.leb_le in Ecmp.
        set (unusedRows := range_difference (length (objectsTracked s))
                             (rev (map fst (matching s ic)))).
        destruct (for_each_lost ids unusedRows s1 Hwf1)
          as (s' & Hrun & Hwf' & Hn & Hm & Hk & Hother & Hlost).
        { apply Forall_forall. intros r Hr. apply range_difference_In in Hr.
          lia. }
        { apply NoDup_map_nth.
          - apply Hwf.
          - apply range_difference_NoDup.
          - apply Forall_forall. intros r Hr.
            apply range_difference_In in Hr. lia. }
        { intros r Hr. apply range_difference_In in Hr. rewrite Ek1.
          apply nth_In. fold ids. lia. }
        rewrite Hrun.
        exists (Return (objectsTracked s')), s'.
        split; [reflexivity|]. split; [assumption|].
        split.
        { apply later_shrink; [congruence|].
          intros k H. apply Hk in H. now rewrite Ek1 in H. }
        split; [congruence|]. split; [now left|].
        split.
        { intros _. split; [congruence|].
          intros k H. apply Hk in H. now rewrite Ek1 in H. }
        intros _ k c m Hc Hm0.
        apply (Hcases k c m); try assumption.
        -- intros r c0 Hr Enth Hin H1 H2 Hnth. left.
           exists (nth c0 ic (0, 0)). split; [exact Hnth|].
           destruct (Hother k) as [H3 H4]; [|split; congruence].
           intros Hin'. apply in_map_iff in Hin'.
           destruct Hin' as (r' & E' & Hr').
           apply range_difference_In in Hr'. destruct Hr' as [Hr' Hfree].
           assert (r' = r).
           { destruct Hwf as (_ & ND & _).
             apply (proj1 (NoDup_nth ids 0) ND); [lia | lia | congruence]. }
           subst r'. apply Hfree. rewrite <- in_rev.
           apply in_map_iff. exists (r, c0). auto.
        -- intros r Hr Enth Hnot H1 H2. right. left.
           split; [rewrite <- Elen; exact Ecmp|].
           assert (In k (map (fun r => nth r ids 0) unusedRows)) as Hin'.
           { apply in_map_iff. exists r. split; [assumption|].
             apply range_difference_In. rewrite <- in_rev. split; [lia | assumption]. }
           specialize (Hlost k m Hin' H2). rewrite Fm1 in Hlost.
           unfold lost_in. destruct (m + 1 >? maxDisappeared s); [assumption|].
           destruct Hlost as [H3 H4]. split; congruence.
      * (* more detections than objects *)
        apply Nat.leb_gt in Ecmp.
        set (unusedCols := range_difference (length ic)
                             (rev (map snd (matching s ic)))).
        rewrite for_each_register_cols.
        2:{ apply Forall_forall. intros c Hc.
            apply range_difference_In in Hc. lia. }
        rewrite for_each_register_all by assumption.
        set (cs := map (fun col => nth col ic (0, 0)) unusedCols).
        exists (Return (objectsTracked (register_all cs s1))), (register_all cs s1).
        split; [reflexivity|]. split; [now apply register_all_wf|].
        split.
        { apply later_trans with s1; [|now apply register_all_later].
          apply later_shrink; [assumption|]. now rewrite Ek1. }
        split; [simpl; congruence|]. split; [now left|].
        split; [rewrite <- Elen; intros Hle; exfalso; lia|].
        intros _ k c m Hc Hm0.
        assert (In k (keys (objectsTracked s1))) as Hk1
            by (rewrite Ek1; apply getitem_In; eauto).
        destruct (register_all_old cs s1 Hwf1 k Hk1) as [H3 H4].
        apply (Hcases k c m); try assumption.
        -- intros r c0 Hr Enth Hin H1 H2 Hnth. left.
           exists (nth c0 ic (0, 0)). split; [exact Hnth|]. split; congruence.
        -- intros r Hr Enth Hnot H1 H2. right. right.
           split; [rewrite <- Elen; exact Ecmp|]. split; congruence.
Qed.

Arguments sqdist : simpl never.
Arguments centroid_of : simpl never.

(** ** Checking well-formedness; the example trackers *)

Lemma distinct_NoDup l : distinct l = true -> NoDup l.
Proof.
  induction l as [|k l IH]; simpl; intros H; constructor.
  - apply andb_true_iff in H. destruct H as [H _].
    apply negb_true_iff in H. intros Hin.
    assert (existsb (Z.eqb k) l = true) as E.
    { apply existsb_exists. exists k. split; [assumption | apply Z.eqb_refl]. }
    congruence.
  - apply IH. apply andb_true_iff in H. tauto.
Qed.

Lemma wf_check_sound s : wf_check s = true -> wf s.
Proof.
  unfold wf_check, wf. intros H.
  apply andb_true_iff in H. destruct H as [H H3].
  apply andb_true_iff in H. destruct H as [H1 H2].
  destruct (list_eq_dec Z.eq_dec (keys (objectsTracked s))
                        (keys (disappeared s))) as [E|]; [|discriminate].
  split; [assumption|]. split; [now apply distinct_NoDup|].
  apply Forall_forall. intros k Hk.
  rewrite forallb_forall in H3. apply Z.ltb_lt. now apply H3.
Qed.

(** ** Short inputs

    With at most three objects and at most eight detections the two library
    calls are fixed: [update] does on every platform what it does on the
    reference platform. *)

Lemma match_detections_reference inputCentroid s :
  (length (objectsTracked s) <= 3)%nat -> (length inputCentroid <= 8)%nat ->
  match_detections inputCentroid s
  = match_detections (platform := reference_platform) inputCentroid s.
Proof.
  intros Hs Hc. unfold match_detections, bind, get_self. cbv zeta.
  destruct (0 <? length (values (objectsTracked s)) * length inputCentroid)%nat;
    [|reflexivity].
  assert (length (values (objectsTracked s)) = length (objectsTracked s))
    as El by apply length_map.
  unfold row_order. rewrite argsort_short
    by (rewrite length_map, cdist_length; lia).
  change (argsort (Platform := reference_platform)) with stable_argsort.
  destruct (match_pairs _ _ _ _ _ s) as [[[usedRows usedCols]|e] s1];
    [|reflexivity].
  unfold settle_unmatched. cbv zeta.
  rewrite !range_difference_small by lia. reflexivity.
Qed.

Lemma update_reference rect s :
  (length (objectsTracked s) <= 3)%nat -> (length rect <= 8)%nat ->
  update rect s = update (platform := reference_platform) rect s.
Proof.
  intros Hs Hr. destruct rect as [|b rect]; [reflexivity|].
  unfold update, bind, get_self.
  destruct (len (objectsTracked s) =? 0)%nat; [reflexivity|].
  rewrite match_detections_reference; [reflexivity | exact Hs|].
  now rewrite length_map.
Qed.

(** The example of two faces and three detections, on every platform. *)

Lemma two_faces_reached :
  two_faces = run (init 13) [[(0, 0, 0, 0); (20, 0, 20, 0)]].
Proof. vm_compute. reflexivity. Qed.

Lemma two_faces_three_boxes :
  update three_boxes two_faces
  = (Return [(1, (8, 0)); (2, (20, 0)); (3, (200, 0)); (4, (400, 0))],
     {| nextObjectID := 5;
        objectsTracked :=
          [(1, (8, 0)); (2, (20, 0)); (3, (200, 0)); (4, (400, 0))];
        disappeared := [(1, 0); (2, 0); (3, 0); (4, 0)];
        maxDisappeared := 13 |}).
Proof. rewrite update_reference by (simpl; lia). vm_compute. reflexivity. Qed.

(** * Symbolic evaluation of the methods *)

(** Rewrites the id comparisons that the hypotheses decide. *)
Ltac decide_ids :=
  repeat match goal with
         | |- context [?k =? ?k] => rewrite (Z.eqb_refl k)
         | H : (?a =? ?b) = false |- context [?a =? ?b] => rewrite H
         end.

Ltac unfold_methods :=
  unfold update, match_detections, settle_unmatched, mark_disappeared,
    deregister, register, disappeared_increment, disappeared_getitem,
    disappeared_setitem, disappeared_delitem, objectsTracked_setitem,
    objectsTracked_delitem, nextObjectID_increment, list_getitem, contains,
    bind, get_self, put_self, ret, raise, row_order, col_choice.

Ltac evaluate_methods :=
  repeat (progress (unfold_methods;
          cbn -[Z.eqb Z.ltb Z.leb Z.gtb Z.min Z.add sqdist centroid_of];
          decide_ids)).

(** * The claims *)

(** ** Registration on an empty tracker *)

(** C6.  On a tracker that tracks nothing, [update] with N detections returns
    and leaves exactly N entries: their ids are [nextObjectID],
    [nextObjectID + 1], ... in the order of the detections (1, 2, ... on a new
    tracker), the centroid of each is the integer midpoint of its box
    ([(left + right) / 2], [(top + bottom) / 2] truncated toward zero, so
    within one half of the exact midpoint), and each miss counter is 0. *)
Theorem update_registers_all_on_empty_tracker :
  forall (n mx : Z) (rect : list Box),
    let ids := map (fun i => n + Z.of_nat i) (seq 0 (length rect)) in
    let entries := combine ids (map centroid_of rect) in
    update rect {| nextObjectID := n; objectsTracked := [];
                   disappeared := []; maxDisappeared := mx |}
    = (Return entries,
       {| nextObjectID := n + Z.of_nat (length rect);
          objectsTracked := entries;
          disappeared := map (fun k => (k, 0)) ids;
          maxDisappeared := mx |})
    /\ length entries = length rect
    /\ fst (update rect (init mx))
       = Return (combine (map Z.of_nat (seq 1 (length rect)))
                         (map centroid_of rect))
    /\ Forall (fun b : Box =>
                 let '(bX, bY, eX, eY) := b in
                 let '(cX, cY) := centroid_of b in
                 Z.abs (2 * cX - (bX + eX)) <= 1
                 /\ Z.abs (2 * cY - (bY + eY)) <= 1) rect.
Proof.
  intros n mx rect ids entries. subst entries ids.
  assert (forall n', update rect {| nextObjectID := n'; objectsTracked := [];
                   disappeared := []; maxDisappeared := mx |}
    = (Return (combine (ids_from n' (length rect)) (map centroid_of rect)),
       {| nextObjectID := n' + Z.of_nat (length rect);
          objectsTracked :=
            combine (ids_from n' (length rect)) (map centroid_of rect);
          disappeared := map (fun k => (k, 0)) (ids_from n' (length rect));
          maxDisappeared := mx |})) as Hrun.
  { intros n'. destruct rect as [|b rect]; [simpl; now rewrite Z.add_0_r|].
    unfold update. set (ic := map centroid_of (b :: rect)).
    unfold bind at 1. cbn [get_self]. unfold bind at 1.
    cbn [objectsTracked len length Nat.eqb].
    rewrite for_each_register by constructor.
    cbn [nextObjectID objectsTracked disappeared maxDisappeared app].
    subst ic. rewrite length_map. reflexivity. }
  rewrite <- ids_from_seq. repeat split.
  - apply Hrun.
  - rewrite length_combine, ids_from_length, length_map. apply Nat.min_id.
  - unfold init, empty. rewrite Hrun. cbn [fst]. do 2 f_equal.
    rewrite ids_from_seq, <- seq_shift, map_map.
    apply map_ext. intros i. lia.
  - apply Forall_forall. intros [[[bX bY] eX] eY] _. unfold centroid_of.
    pose proof (Z.quot_rem' (bX + eX) 2) as E1.
    pose proof (Z.quot_rem' (bY + eY) 2) as E2.
    pose proof (Z.rem_bound_abs (bX + eX) 2 ltac:(lia)) as B1.
    pose proof (Z.rem_bound_abs (bY + eY) 2 ltac:(lia)) as B2.
    split; lia.
Qed.


(** ** One object, one detection *)

(** C8.  No distance gates a match.  A tracker with exactly one object, given
    exactly one detection, returns and matches the two wherever they are: the
    id is kept, no id is handed out ([nextObjectID] is unchanged), the
    centroid becomes the centroid of the detection and the miss counter is 0,
    whatever it was.  In particular, after registering one object and five
    updates without detections, a detection anywhere takes id 1. *)
Theorem single_object_takes_single_detection :
  (forall (n id m mx : Z) (c : Centroid) (b : Box),
      update [b] {| nextObjectID := n; objectsTracked := [(id, c)];
                    disappeared := [(id, m)]; maxDisappeared := mx |}
      = (Return [(id, centroid_of b)],
         {| nextObjectID := n; objectsTracked := [(id, centroid_of b)];
            disappeared := [(id, 0)]; maxDisappeared := mx |}))
  /\ (forall b0 b : Box,
        run (init 13) ([b0] :: repeat [] 5)
        = {| nextObjectID := 2; objectsTracked := [(1, centroid_of b0)];
             disappeared := [(1, 5)]; maxDisappeared := 13 |}
        /\ run (init 13) ([b0] :: repeat [] 5 ++ [[b]])
           = {| nextObjectID := 2; objectsTracked := [(1, centroid_of b)];
                disappeared := [(1, 0)]; maxDisappeared := 13 |}).
Proof.
  assert (forall (n id m mx : Z) (c : Centroid) (b : Box),
      update [b] {| nextObjectID := n; objectsTracked := [(id, c)];
                    disappeared := [(id, m)]; maxDisappeared := mx |}
      = (Return [(id, centroid_of b)],
         {| nextObjectID := n; objectsTracked := [(id, centroid_of b)];
            disappeared := [(id, 0)]; maxDisappeared := mx |})) as Hone.
  { intros. rewrite update_reference by (simpl; lia).
    unfold update, match_detections, settle_unmatched, bind, get_self.
    cbn -[Z.eqb sqdist centroid_of]. now rewrite !Z.eqb_refl. }
  split; [exact Hone|].
  intros b0 b.
  assert (run (init 13) ([b0] :: repeat [] 5)
          = {| nextObjectID := 2; objectsTracked := [(1, centroid_of b0)];
               disappeared := [(1, 5)]; maxDisappeared := 13 |}) as Hfive.
  { change (run (init 13) ([b0] :: repeat [] 5))
      with (run {| nextObjectID := 2; objectsTracked := [(1, centroid_of b0)];
                   disappeared := [(1, 0)]; maxDisappeared := 13 |}
                (repeat [] 5)).
    generalize (centroid_of b0). intros c0. vm_compute. reflexivity. }
  split; [exact Hfive|].
  change ([b0] :: repeat [] 5 ++ [[b]]) with (([b0] :: repeat [] 5) ++ [[b]]).
  unfold run in *. rewrite fold_left_app, Hfive. cbn [fold_left].
  now rewrite Hone.
Qed.

(** ** Forgetting a lost object *)

(** C5.  With [maxDisappeared = 13], after one object is registered, each of
    the first 13 consecutive updates without detections (the call following
    [j] earlier ones, [j = 0 .. 12]) returns a mapping that still holds the
    object, and the 14th returns the empty mapping and leaves both
    dictionaries empty. *)
Theorem object_forgotten_at_fourteenth_miss :
  forall b : Box,
    Forall (fun j =>
              fst (update [] (run (init 13) ([b] :: repeat [] j)))
              = Return [(1, centroid_of b)])
           (seq 0 13)
    /\ update [] (run (init 13) ([b] :: repeat [] 13))
       = (Return [],
          {| nextObjectID := 2; objectsTracked := [];
             disappeared := []; maxDisappeared := 13 |}).
Proof.
  intros b.
  assert (forall j, run (init 13) ([b] :: repeat [] j)
                    = run {| nextObjectID := 2;
                             objectsTracked := [(1, centroid_of b)];
                             disappeared := [(1, 0)];
                             maxDisappeared := 13 |} (repeat [] j)) as E
    by reflexivity.
  generalize dependent (centroid_of b). intros c E.
  split.
  - repeat constructor; rewrite E; vm_compute; reflexivity.
  - rewrite E. vm_compute. reflexivity.
Qed.

(** ** The loop over [self.disappeared.keys()] *)

(** C1 fails on the code.  Two objects are registered in one frame and then
    no detection arrives.  The tracker is well formed before the 14th such
    update; in that call the first object exceeds [maxDisappeared] and is
    deregistered inside the loop over the keys of [self.disappeared], and the
    iterator raises [RuntimeError] when asked for the next key.  The call
    does not return, and the counter of the second object stays at 13. *)
Theorem update_raises_when_earlier_object_expires :
  let self := run (init 13) ([(0, 0, 2, 2); (10, 10, 12, 12)] :: repeat [] 13) in
  self = {| nextObjectID := 3;
            objectsTracked := [(1, (1, 1)); (2, (11, 11))];
            disappeared := [(1, 13); (2, 13)];
            maxDisappeared := 13 |}
  /\ wf self
  /\ update [] self
     = (Raise RuntimeError,
        {| nextObjectID := 3; objectsTracked := [(2, (11, 11))];
           disappeared := [(2, 13)]; maxDisappeared := 13 |}).
Proof.
  assert (run (init 13) ([(0, 0, 2, 2); (10, 10, 12, 12)] :: repeat [] 13)
          = {| nextObjectID := 3;
               objectsTracked := [(1, (1, 1)); (2, (11, 11))];
               disappeared := [(1, 13); (2, 13)];
               maxDisappeared := 13 |}) as E by (vm_compute; reflexivity).
  cbv zeta. rewrite E. split; [reflexivity|]. split.
  - unfold wf; cbn. repeat split.
    + repeat constructor; cbn; intuition discriminate.
    + repeat constructor.
  - vm_compute. reflexivity.
Qed.

(** ** Two objects, three detections *)

(** C3, as the code has it.  On a tracker with two objects, [update] with
    three detections returns.  When the two objects have different nearest
    detections, each object moves to its nearest detection with counter 0 and
    exactly one id, [nextObjectID], is handed out, to the remaining
    detection.  When both objects have the same nearest detection, only the
    object whose nearest distance is smaller (the first one on a tie) moves
    to it; the other object keeps its centroid and its counter, and the two
    other detections are registered under two new ids, in the order of the
    detections. *)
Theorem two_objects_three_detections :
  forall (n i1 i2 m1 m2 mx : Z) (c1 c2 : Centroid) (b0 b1 b2 : Box),
    i1 <> i2 -> i1 < n -> i2 < n ->
    let self := {| nextObjectID := n;
                   objectsTracked := [(i1, c1); (i2, c2)];
                   disappeared := [(i1, m1); (i2, m2)];
                   maxDisappeared := mx |} in
    let inputCentroid := map centroid_of [b0; b1; b2] in
    let d1 := map (sqdist c1) inputCentroid in
    let d2 := map (sqdist c2) inputCentroid in
    let near1 := nth (argmin d1) inputCentroid (0, 0) in
    let near2 := nth (argmin d2) inputCentroid (0, 0) in
    let self' := snd (update [b0; b1; b2] self) in
    fst (update [b0; b1; b2] self) = Return (objectsTracked self')
    /\ (argmin d1 <> argmin d2 ->
        exists u,
          range_difference 3 [argmin d2; argmin d1] = [u]
          /\ self' = {| nextObjectID := n + 1;
                        objectsTracked :=
                          [(i1, near1); (i2, near2);
                           (n, nth u inputCentroid (0, 0))];
                        disappeared := [(i1, 0); (i2, 0); (n, 0)];
                        maxDisappeared := mx |})
    /\ (argmin d1 = argmin d2 ->
        exists u v,
          range_difference 3 [argmin d1] = [u; v]
          /\ self' = {| nextObjectID := n + 1 + 1;
                        objectsTracked :=
                          (if row_min d1 <=? row_min d2
                           then [(i1, near1); (i2, c2)]
                           else [(i1, c1); (i2, near2)])
                          ++ [(n, nth u inputCentroid (0, 0));
                              (n + 1, nth v inputCentroid (0, 0))];
                        disappeared :=
                          (if row_min d1 <=? row_min d2
                           then [(i1, 0); (i2, m2)]
                           else [(i1, m1); (i2, 0)])
                          ++ [(n, 0); (n + 1, 0)];
                        maxDisappeared := mx |}).
Proof.
  intros n i1 i2 m1 m2 mx c1 c2 b0 b1 b2 N12 L1 L2.
  assert ((i1 =? i2) = false) as E12 by now apply Z.eqb_neq.
  assert ((i2 =? i1) = false) as E21 by (apply Z.eqb_neq; congruence).
  assert ((n =? i1) = false) as En1 by (apply Z.eqb_neq; lia).
  assert ((n =? i2) = false) as En2 by (apply Z.eqb_neq; lia).
  assert ((n + 1 =? i1) = false) as En1' by (apply Z.eqb_neq; lia).
  assert ((n + 1 =? i2) = false) as En2' by (apply Z.eqb_neq; lia).
  assert ((n + 1 =? n) = false) as Enn by (apply Z.eqb_neq; lia).
  cbv zeta. rewrite !update_reference by (simpl; lia).
  rewrite !range_difference_small by lia.
  unfold update, match_detections, settle_unmatched, bind, get_self.
  cbn -[Z.eqb Z.ltb Z.leb Z.min sqdist centroid_of Z.add].
  generalize (centroid_of b0) (centroid_of b1) (centroid_of b2).
  intros p0 p1 p2.
  generalize (sqdist c1 p0) (sqdist c1 p1) (sqdist c1 p2)
             (sqdist c2 p0) (sqdist c2 p1) (sqdist c2 p2).
  intros x0 x1 x2 y0 y1 y2.
  destruct (x1 <? x0) eqn:X1;
    [destruct (x2 <? x1) eqn:X2 | destruct (x2 <? x0) eqn:X2];
    (destruct (y1 <? y0) eqn:Y1;
     [destruct (y2 <? y1) eqn:Y2 | destruct (y2 <? y0) eqn:Y2]);
    cbn -[Z.eqb Z.ltb Z.leb Z.min Z.add];
    destruct (Z.min (Z.min x0 x1) x2 <=? Z.min (Z.min y0 y1) y2) eqn:Ord;
    evaluate_methods;
    (split; [reflexivity|]);
    (split; [intros Hne | intros Heq]);
    try (exfalso; apply Hne; reflexivity);
    try discriminate Heq;
    repeat eexists; reflexivity.
Qed.

Lemma update_outcome rect s o s' :
  update rect s = (o, s') -> fst (update rect s) = o /\ snd (update rect s) = s'.
Proof. intros ->. auto. Qed.

(** ** One mutation per object and call *)

(** C2, as the code has it.  In a call of [update] that returns, an object
    tracked before and after the call was matched (its centroid is the
    centroid of a detection and its counter is 0), or counted one miss (same
    centroid, counter one higher; only when there are at least as many
    objects as detections), or, only when there are more detections than
    objects, left with the centroid and the counter it had. *)
Theorem surviving_object_matched_missed_or_untouched :
  forall (self : FaceTracker) (rect : list Box) (k : Z)
         (c c' : Centroid) (m m' : Z),
    wf self ->
    getitem (objectsTracked self) k = Some c ->
    getitem (disappeared self) k = Some m ->
    fst (update rect self) = Return (objectsTracked (snd (update rect self))) ->
    getitem (objectsTracked (snd (update rect self))) k = Some c' ->
    getitem (disappeared (snd (update rect self))) k = Some m' ->
    (In c' (map centroid_of rect) /\ m' = 0)
    \/ ((length rect <= length (objectsTracked self))%nat
        /\ c' = c /\ m' = m + 1)
    \/ ((length (objectsTracked self) < length rect)%nat
        /\ c' = c /\ m' = m).
Proof.
  intros self rect k c c' m m' Hwf Hc Hm Hret Hc' Hm'.
  destruct (update_spec rect self Hwf)
    as (o & s' & Hrun & _ & _ & _ & _ & _ & Hkey).
  apply update_outcome in Hrun. destruct Hrun as [Eo Es].
  rewrite Es in *. rewrite Hret in Eo. symmetry in Eo.
  destruct (Hkey Eo k c m Hc Hm) as [(c0 & Hin & H1 & H2) | [[Hle H] | [Hlt [H1 H2]]]].
  - left. split; congruence.
  - right. left. split; [assumption|]. unfold lost_in in H.
    destruct (m + 1 >? maxDisappeared self); destruct H as [H1 H2];
      split; congruence.
  - right. right. split; [assumption|]. split; congruence.
Qed.

(** ** More detections than objects *)

(** C10.  When a call of [update] has more detections than there are tracked
    objects, it returns, every id tracked before is tracked after, and every
    object tracked before either was matched (centroid of a detection,
    counter 0) or has the centroid and the counter it had: no counter is
    incremented, nothing is deregistered. *)
Theorem more_detections_than_objects :
  forall (self : FaceTracker) (rect : list Box),
    wf self ->
    (length (objectsTracked self) < length rect)%nat ->
    let self' := snd (update rect self) in
    fst (update rect self) = Return (objectsTracked self')
    /\ incl (keys (objectsTracked self)) (keys (objectsTracked self'))
    /\ forall k c m,
        getitem (objectsTracked self) k = Some c ->
        getitem (disappeared self) k = Some m ->
        (exists c', In c' (map centroid_of rect)
                    /\ getitem (objectsTracked self') k = Some c'
                    /\ getitem (disappeared self') k = Some 0)
        \/ (getitem (objectsTracked self') k = Some c
            /\ getitem (disappeared self') k = Some m).
Proof.
  intros self rect Hwf Hlt self'.
  destruct (update_spec rect self Hwf)
    as (o & s' & Hrun & _ & _ & _ & Ho & _ & Hkey).
  apply update_outcome in Hrun. destruct Hrun as [Eo Es].
  subst self'. rewrite Es, Eo.
  assert (o = Return (objectsTracked s')) as Hret.
  { destruct Ho as [H | [-> _]]; [assumption | simpl in Hlt; lia]. }
  assert (forall k c m,
             getitem (objectsTracked self) k = Some c ->
             getitem (disappeared self) k = Some m ->
             (exists c', In c' (map centroid_of rect)
                         /\ getitem (objectsTracked s') k = Some c'
                         /\ getitem (disappeared s') k = Some 0)
             \/ (getitem (objectsTracked s') k = Some c
                 /\ getitem (disappeared s') k = Some m)) as Hall.
  { intros k c m Hc Hm.
    destruct (Hkey Hret k c m Hc Hm) as [H | [[Hle _] | [_ H]]].
    - now left.
    - lia.
    - now right. }
  split; [assumption|]. split; [|exact Hall].
  intros k Hk.
  assert (exists c, getitem (objectsTracked self) k = Some c) as (c & Hc)
      by now apply getitem_In.
  destruct (wf_getitem self k Hwf Hk) as (m & Hm).
  apply getitem_In.
  destruct (Hall k c m Hc Hm) as [(c0 & _ & H & _) | [H _]]; eauto.
Qed.

(** ** Ids *)

Lemma run_wf_later frames : forall s,
  wf s -> wf (run s frames) /\ later s (run s frames).
Proof.
  induction frames as [|rect frames IH]; intros s Hwf.
  - split; [assumption | apply later_refl].
  - destruct (update_spec rect s Hwf) as (o & s' & Hrun & Hwf' & Hl & _).
    apply update_outcome in Hrun. destruct Hrun as [_ Es].
    change (run s (rect :: frames)) with (run (snd (update rect s)) frames).
    rewrite Es. destruct (IH s' Hwf') as [H1 H2].
    split; [assumption | eapply later_trans; eassumption].
Qed.

Lemma init_wf mx : wf (init mx).
Proof. repeat split; constructor. Qed.

(** C9.  Along any sequence of [update] calls on a new tracker, whether the
    calls return or raise: [nextObjectID] never decreases; every tracked id
    is below [nextObjectID]; no two tracked objects share an id; and an id
    below the counter of an earlier state (so handed out by then) that is
    tracked later was tracked in that earlier state too, so an id that was
    handed out and deregistered is never handed out again. *)
Theorem ids_increase_and_are_never_reissued :
  forall (mx : Z) (frames frames' : list (list Box)),
    let self := run (init mx) frames in
    let self' := run self frames' in
    nextObjectID self <= nextObjectID self'
    /\ Forall (fun k => k < nextObjectID self') (keys (objectsTracked self'))
    /\ NoDup (keys (objectsTracked self'))
    /\ forall k, In k (keys (objectsTracked self')) ->
                 In k (keys (objectsTracked self)) \/ nextObjectID self <= k.
Proof.
  intros mx frames frames' self self'.
  destruct (run_wf_later frames (init mx) (init_wf mx)) as [Hwf _].
  fold self in Hwf.
  destruct (run_wf_later frames' self Hwf) as [(_ & ND & B) [Hn Hk]].
  fold self' in ND, B, Hn, Hk.
  repeat split; try assumption.
  intros k H. destruct (Hk k H) as [H'|H']; [now left | right; lia].
Qed.

(** ** At least as many objects as detections *)

(** C7.  When there are at least as many tracked objects as detections,
    [update] hands out no id: [nextObjectID] is unchanged and every id
    tracked after the call was tracked before.  With three objects and one
    detection the call returns; the object nearest to the detection (the
    first such in stored order) takes the centroid of the detection with
    counter 0, and each of the two other objects has its counter incremented
    by 1 with its centroid kept, and is deregistered when the incremented
    counter exceeds [maxDisappeared]. *)
Theorem no_registration_when_objects_outnumber_detections :
  forall (self : FaceTracker) (rect : list Box)
         (n i1 i2 i3 m1 m2 m3 mx : Z) (c1 c2 c3 : Centroid) (b : Box),
    wf self ->
    (length rect <= length (objectsTracked self))%nat ->
    NoDup [i1; i2; i3] ->
    (nextObjectID (snd (update rect self)) = nextObjectID self
     /\ incl (keys (objectsTracked (snd (update rect self))))
             (keys (objectsTracked self)))
    /\ (let three := {| nextObjectID := n;
                        objectsTracked := [(i1, c1); (i2, c2); (i3, c3)];
                        disappeared := [(i1, m1); (i2, m2); (i3, m3)];
                        maxDisappeared := mx |} in
        let p := centroid_of b in
        let r := hd 0%nat (row_order (cdist [c1; c2; c3] [p])) in
        let entry (j : nat) (i : Z) (c : Centroid) (m : Z) :=
          if (j =? r)%nat then [(i, (p, 0))]
          else if m + 1 >? mx then [] else [(i, (c, m + 1))] in
        let objs := entry 0%nat i1 c1 m1 ++ entry 1%nat i2 c2 m2
                    ++ entry 2%nat i3 c3 m3 in
        let tracked' := map (fun o => (fst o, fst (snd o))) objs in
        update [b] three
        = (Return tracked',
           {| nextObjectID := n;
              objectsTracked := tracked';
              disappeared := map (fun o => (fst o, snd (snd o))) objs;
              maxDisappeared := mx |})
        /\ (r < 3)%nat
        /\ Forall (fun c => sqdist (nth r [c1; c2; c3] (0, 0)) p <= sqdist c p)
                  [c1; c2; c3]).
Proof.
  intros self rect n i1 i2 i3 m1 m2 m3 mx c1 c2 c3 b Hwf Hle ND. split.
  - destruct (update_spec rect self Hwf)
      as (o & s' & Hrun & _ & _ & _ & _ & Hsame & _).
    rewrite Hrun. simpl. now apply Hsame.
  - clear self rect Hwf Hle.
    assert ((i1 =? i2) = false /\ (i1 =? i3) = false /\ (i2 =? i3) = false
            /\ (i2 =? i1) = false /\ (i3 =? i1) = false /\ (i3 =? i2) = false)
      as (E12 & E13 & E23 & E21 & E31 & E32).
    { inversion ND as [|? ? N1 ND1]; subst.
      inversion ND1 as [|? ? N2 ND2]; subst.
      simpl in N1, N2. repeat split; apply Z.eqb_neq; intuition congruence. }
    cbv zeta. rewrite update_reference by (simpl; lia).
    unfold row_order.
    rewrite !(argsort_short (map row_min (cdist [c1; c2; c3] [centroid_of b])))
      by (cbv [length map cdist]; lia).
    unfold update, match_detections, settle_unmatched, bind, get_self,
      row_order.
    cbn -[Z.eqb Z.ltb Z.leb Z.gtb Z.min sqdist centroid_of Z.add].
    generalize (centroid_of b). intros p.
    remember (sqdist c1 p) as d1 eqn:Hd1.
    remember (sqdist c2 p) as d2 eqn:Hd2.
    remember (sqdist c3 p) as d3 eqn:Hd3.
    destruct (d2 <=? d3) eqn:D23; evaluate_methods;
      destruct (d1 <=? d2) eqn:D12; evaluate_methods;
      destruct (d1 <=? d3) eqn:D13; evaluate_methods;
      destruct (m1 + 1 >? mx) eqn:M1; evaluate_methods;
      destruct (m2 + 1 >? mx) eqn:M2; evaluate_methods;
      destruct (m3 + 1 >? mx) eqn:M3; evaluate_methods;
      (split; [reflexivity|]); (split; [lia|]);
      rewrite <- ?Hd1, <- ?Hd2, <- ?Hd3;
      repeat apply Forall_cons; try apply Forall_nil; lia.
Qed.

(** ** The matching pass *)

(** C4.  With objects tracked and detections present, on every platform:
    the distance matrix holds, for the object of each row and the detection
    of each column, the square of their Euclidean distance.  [update] walks
    every row once, in ascending order of the minimum of the row (whatever
    the order of rows with equal minima), each row paired with its arg-min
    column (the first column holding the minimum of the row, which is its
    least entry).  Rows are distinct, so a pair is skipped exactly when its
    column is the column of an earlier pair, that is, a column already used.
    A skipped pair leaves its object as it was and its row unused.  Any other
    pair gives the object of its row the centroid of its column and counter 0
    and puts the row and the column among the used ones.  The walk changes no
    id and no counter [nextObjectID]; [update] finishes with
    [settle_unmatched] on the used rows and columns. *)
Theorem matching_pass_order :
  forall (self : FaceTracker) (rect : list Box),
    wf self -> rect <> [] -> objectsTracked self <> [] ->
    let inputCentroid := map centroid_of rect in
    let objectIDs := keys (objectsTracked self) in
    let objectsCentroid := values (objectsTracked self) in
    let objDist := cdist objectsCentroid inputCentroid in
    let rows := row_order objDist in
    let cols := col_choice objDist rows in
    (forall r c, (r < length objectIDs)%nat -> (c < length rect)%nat ->
       let a := nth r objectsCentroid (0, 0) in
       let p := nth c inputCentroid (0, 0) in
       nth c (nth r objDist []) 0
       = (fst a - fst p) * (fst a - fst p) + (snd a - snd p) * (snd a - snd p))
    /\ Permutation rows (seq 0 (length objectIDs))
    /\ (forall i j, (i < j < length rows)%nat ->
          row_min (nth (nth i rows 0%nat) objDist [])
          <= row_min (nth (nth j rows 0%nat) objDist []))
    /\ cols = map (fun r => argmin (nth r objDist [])) rows
    /\ Forall (fun r => let row := nth r objDist [] in
                        (argmin row < length rect)%nat
                        /\ nth (argmin row) row 0 = row_min row
                        /\ Forall (fun d => row_min row <= d) row
                        /\ forall j, (j < argmin row)%nat ->
                                     row_min row < nth j row 0) rows
    /\ exists usedRows usedCols self1,
        match_pairs objectIDs inputCentroid (combine rows cols) [] [] self
        = (Return (usedRows, usedCols), self1)
        /\ update rect self
           = (settle_unmatched objectIDs inputCentroid (length objectIDs)
                (length rect) usedRows usedCols ;;
              self' <- get_self ;; ret (objectsTracked self')) self1
        /\ nextObjectID self1 = nextObjectID self
        /\ keys (objectsTracked self1) = objectIDs
        /\ keys (disappeared self1) = objectIDs
        /\ forall before row col after,
            combine rows cols = before ++ (row, col) :: after ->
            let objectID := nth row objectIDs 0 in
            (In col (map snd before) ->
             ~ In row usedRows
             /\ getitem (objectsTracked self1) objectID
                = getitem (objectsTracked self) objectID
             /\ getitem (disappeared self1) objectID
                = getitem (disappeared self) objectID)
            /\ (~ In col (map snd before) ->
                In row usedRows /\ In col usedCols
                /\ getitem (objectsTracked self1) objectID
                   = Some (nth col inputCentroid (0, 0))
                /\ getitem (disappeared self1) objectID = Some 0).
Proof.
  intros self rect Hwf Hrect Htr ic ids cents objDist rows cols.
  assert (ic <> []) as Hic.
  { subst ic. destruct rect; [congruence | discriminate]. }
  assert (length objDist = length ids) as Elen.
  { subst objDist ids cents. rewrite cdist_length. unfold keys, values.
    now rewrite !length_map. }
  assert (Forall (fun r => (r < length objDist)%nat) rows) as Hrows.
  { apply Forall_forall. intros r Hr. now apply row_order_In in Hr. }
  assert (length cents = length ids) as Ecents.
  { subst cents ids. unfold keys, values. now rewrite !length_map. }
  split.
  { intros r c Hr Hc a p. subst objDist. rewrite cdist_nth by lia. fold a.
    rewrite (nth_indep _ 0 (sqdist a (0, 0)))
      by (subst ic; now rewrite !length_map).
    rewrite (map_nth (sqdist a) ic (0, 0) c). reflexivity. }
  split. { rewrite <- Elen. apply row_order_perm. }
  split.
  { intros i j Hij.
    pose proof (argsort_sorted (map row_min objDist)) as Hsorted.
    fold (row_order objDist) in Hsorted. fold rows in Hsorted.
    assert (forall l, StronglySorted (key_le (map row_min objDist)) l ->
              forall i j, (i < j < length l)%nat ->
                key_le (map row_min objDist) (nth i l 0%nat) (nth j l 0%nat))
      as Hnth.
    { clear. induction 1 as [|r l Hs IH Hr]; intros i j Hij;
        [simpl in Hij; lia|].
      destruct j as [|j]; [lia|]. destruct i as [|i]; simpl in *.
      - rewrite Forall_forall in Hr. apply Hr. apply nth_In. lia.
      - apply IH. lia. }
    specialize (Hnth rows Hsorted i j Hij). unfold key_le in Hnth.
    now rewrite !(map_nth row_min objDist [] _) in Hnth. }
  split. { now apply col_choice_eq. }
  split.
  { apply Forall_forall. intros r Hr. rewrite Forall_forall in Hrows.
    specialize (Hrows r Hr). cbv zeta. subst objDist.
    rewrite cdist_length in Hrows. rewrite cdist_nth by assumption.
    replace (length rect) with
      (length (map (sqdist (nth r cents (0, 0))) ic))
      by (subst ic; now rewrite !length_map).
    assert (map (sqdist (nth r cents (0, 0))) ic <> []) as Hrow
        by (destruct ic; [congruence | discriminate]).
    destruct (argmin_spec _ Hrow) as (H1 & H2 & H3).
    split; [exact H1|]. split; [exact H2|].
    split; [apply row_min_le | exact H3]. }
  change (combine rows cols) with (pairs_of self ic).
  exists (rev (map fst (matching self ic))),
         (rev (map snd (matching self ic))),
         (after_matching self ic).
  split.
  { rewrite match_pairs_run.
    - now rewrite !app_nil_r.
    - apply Forall_forall. intros rc Hrc.
      apply (pairs_of_valid self ic Hic) in Hrc. tauto. }
  split.
  { destruct rect as [|b rect]; [congruence|].
    rewrite update_unfold_nonempty. fold ic.
    assert ((len (objectsTracked self) =? 0)%nat = false) as ->.
    { destruct (objectsTracked self); [congruence | reflexivity]. }
    rewrite match_detections_run by assumption.
    unfold bind at 1.
    replace (length ids) with (length (objectsTracked self))
      by (subst ids; unfold keys; now rewrite length_map).
    replace (length (b :: rect)) with (length ic)
      by (subst ic; now rewrite length_map).
    destruct (settle_unmatched _ _ _ _ _ _ _) as [[u|e] s']; reflexivity. }
  split. { apply assign_all_fields. }
  destruct (after_matching_keys self ic Hwf Hic) as [Ek Ek'].
  split; [exact Ek|]. split; [rewrite Ek'; symmetry; apply Hwf|].
  intros before row col after E objectID.
  assert (In (row, col) (pairs_of self ic)) as Hin
      by (rewrite E; apply in_elt).
  destruct (pairs_of_valid self ic Hic _ Hin) as (Hr & Hc & _).
  simpl in Hr, Hc.
  destruct (after_matching_row self ic Hwf Hic row Hr) as [Hyes Hno].
  pose proof (accepted_first (pairs_of self ic) [] []
                (pairs_of_NoDup self ic) (fun r _ H => H)
                before row col after E) as Hfirst.
  fold (matching self ic) in Hfirst.
  split; intros Emem.
  - assert (~ In row (map fst (matching self ic))) as Hnot.
    { intros H. apply in_map_iff in H. destruct H as ([r' c'] & Er & H).
      simpl in Er. subst r'.
      assert (c' = col).
      { apply accepted_sound in H. destruct H as (H & _).
        pose proof (pairs_of_NoDup self ic) as ND.
        clear -H Hin ND. induction (pairs_of self ic) as [|[r0 c0] l IH];
          [contradiction|].
        simpl in ND. inversion ND as [|? ? Hfresh ND']; subst.
        destruct H as [H|H], Hin as [H'|H'].
        - congruence.
        - injection H as -> ->. exfalso. apply Hfresh.
          apply in_map_iff. exists (row, col). auto.
        - injection H' as -> ->. exfalso. apply Hfresh.
          apply in_map_iff. exists (row, c'). auto.
        - now apply IH. }
      subst c'. apply Hfirst in H. tauto. }
    split; [now rewrite <- in_rev|]. now apply Hno.
  - assert (In (row, col) (matching self ic)) as Hacc
        by (apply Hfirst; simpl; tauto).
    split. { rewrite <- in_rev. apply in_map_iff. exists (row, col). auto. }
    split. { rewrite <- in_rev. apply in_map_iff. exists (row, col). auto. }
    now apply Hyes.
Qed.

(** * Further properties of the tracker *)

(** ** Centroids *)

(** X1.  The centroid of a box whose corners are in order lies in the box:
    truncating the midpoint toward zero never leaves the interval between the
    two corners, for negative coordinates too. *)
Theorem centroid_of_in_box :
  forall bX bY eX eY : Z,
    bX <= eX -> bY <= eY ->
    bX <= fst (centroid_of (bX, bY, eX, eY)) <= eX
    /\ bY <= snd (centroid_of (bX, bY, eX, eY)) <= eY.
Proof.
  intros bX bY eX eY HX HY. unfold centroid_of. cbn [fst snd].
  pose proof (Z.quot_rem' (bX + eX) 2) as E1.
  pose proof (Z.quot_rem' (bY + eY) 2) as E2.
  pose proof (Z.rem_bound_abs (bX + eX) 2 ltac:(lia)) as B1.
  pose proof (Z.rem_bound_abs (bY + eY) 2 ltac:(lia)) as B2.
  pose proof (Z.rem_sign_nz (bX + eX) 2 ltac:(lia)) as S1.
  pose proof (Z.rem_sign_nz (bY + eY) 2 ltac:(lia)) as S2.
  destruct (Z.eq_dec (Z.rem (bX + eX) 2) 0) as [Z1|N1];
    destruct (Z.eq_dec (Z.rem (bY + eY) 2) 0) as [Z2|N2];
    try specialize (S1 N1); try specialize (S2 N2); lia.
Qed.

(** ** [register] and [deregister] *)

Lemma delitem_absent {V : Type} (d : OrderedDict.t V) k :
  ~ In k (keys d) -> delitem d k = d.
Proof.
  induction d as [|[k' v'] d IH]; simpl; [reflexivity|].
  intros H. destruct (Z.eqb_spec k k') as [->|N]; simpl.
  - exfalso. apply H. now left.
  - f_equal. apply IH. intros H'. apply H. now right.
Qed.

Lemma delitem_app_fresh {V : Type} (d : OrderedDict.t V) k v :
  ~ In k (keys d) -> delitem (d ++ [(k, v)]) k = d.
Proof.
  intros H. unfold delitem. rewrite filter_app. simpl.
  rewrite Z.eqb_refl. simpl. rewrite app_nil_r. now apply delitem_absent.
Qed.

Lemma deregister_run s k :
  In k (keys (objectsTracked s)) -> In k (keys (disappeared s)) ->
  deregister k s
  = (Return tt,
     {| nextObjectID := nextObjectID s;
        objectsTracked := delitem (objectsTracked s) k;
        disappeared := delitem (disappeared s) k;
        maxDisappeared := maxDisappeared s |}).
Proof.
  intros Ht Hd. apply contains_In in Ht, Hd.
  unfold deregister, objectsTracked_delitem, disappeared_delitem, bind,
    get_self, put_self; simpl.
  rewrite Ht; simpl. now rewrite Hd.
Qed.

(** X2.  On a well-formed tracker [deregister] of a tracked id returns,
    removes the id from both dictionaries, keeps the tracker well formed and
    leaves every other object and the counter [nextObjectID] as they were;
    [deregister] of an id that is not tracked raises [KeyError] and changes
    nothing. *)
Theorem deregister_removes_or_raises :
  forall (s : FaceTracker) (k : Z),
    wf s ->
    if contains (objectsTracked s) k
    then exists s',
        deregister k s = (Return tt, s')
        /\ wf s'
        /\ nextObjectID s' = nextObjectID s
        /\ getitem (objectsTracked s') k = None
        /\ getitem (disappeared s') k = None
        /\ forall k', k' <> k ->
             getitem (objectsTracked s') k' = getitem (objectsTracked s) k'
             /\ getitem (disappeared s') k' = getitem (disappeared s) k'
    else deregister k s = (Raise KeyError, s).
Proof.
  intros s k Hwf. destruct (contains (objectsTracked s) k) eqn:E.
  - apply contains_In in E.
    assert (In k (keys (disappeared s))) as Ed
        by (destruct Hwf as (Ek & _); now rewrite <- Ek).
    eexists. split; [now apply deregister_run|].
    destruct Hwf as (Ek & ND & B). split.
    { unfold wf; simpl. rewrite !keys_delitem, Ek. repeat split.
      - apply NoDup_filter. now rewrite <- Ek.
      - rewrite <- Ek. apply Forall_forall. intros k' Hk'.
        apply filter_In in Hk'. rewrite Forall_forall in B. now apply B. }
    simpl. split; [reflexivity|].
    rewrite !getitem_delitem_same. repeat split;
      apply getitem_delitem_other; congruence.
  - unfold deregister, objectsTracked_delitem, bind, get_self; simpl.
    now rewrite E.
Qed.

(** X3.  Registering a centroid and then deregistering the id it received
    restores both dictionaries exactly, but not the counter: [nextObjectID]
    stays one higher, so the id is spent. *)
Theorem register_then_deregister :
  forall (s : FaceTracker) (c : Centroid),
    wf s ->
    (register c ;; deregister (nextObjectID s)) s
    = (Return tt,
       {| nextObjectID := nextObjectID s + 1;
          objectsTracked := objectsTracked s;
          disappeared := disappeared s;
          maxDisappeared := maxDisappeared s |}).
Proof.
  intros s c (Ek & ND & B).
  assert (~ In (nextObjectID s) (keys (objectsTracked s))) as N1.
  { intros H. rewrite Forall_forall in B. apply B in H. lia. }
  assert (~ In (nextObjectID s) (keys (disappeared s))) as N2
      by now rewrite <- Ek.
  unfold bind at 1. rewrite register_run.
  rewrite deregister_run; simpl.
  - rewrite !setitem_fresh by assumption.
    now rewrite !delitem_app_fresh by assumption.
  - apply keys_setitem_incl. now right.
  - apply keys_setitem_incl. now right.
Qed.

(** ** A single face *)

Lemma update_one_detection_one_object n id m mx c b :
  update [b] {| nextObjectID := n; objectsTracked := [(id, c)];
                disappeared := [(id, m)]; maxDisappeared := mx |}
  = (Return [(id, centroid_of b)],
     {| nextObjectID := n; objectsTracked := [(id, centroid_of b)];
        disappeared := [(id, 0)]; maxDisappeared := mx |}).
Proof.
  rewrite update_reference by (simpl; lia).
  unfold update, match_detections, settle_unmatched, bind, get_self.
  cbn -[Z.eqb sqdist centroid_of]. now rewrite !Z.eqb_refl.
Qed.

Lemma update_no_detection_one_object n id m mx c :
  update [] {| nextObjectID := n; objectsTracked := [(id, c)];
               disappeared := [(id, m)]; maxDisappeared := mx |}
  = if m + 1 >? mx
    then (Return [],
          {| nextObjectID := n; objectsTracked := [];
             disappeared := []; maxDisappeared := mx |})
    else (Return [(id, c)],
          {| nextObjectID := n; objectsTracked := [(id, c)];
             disappeared := [(id, m + 1)]; maxDisappeared := mx |}).
Proof.
  unfold update. unfold bind at 1. cbn [get_self disappeared keys map fst].
  cbn [for_each_disappeared_key]. unfold bind at 1. unfold bind at 1.
  cbn [get_self disappeared keys map fst].
  destruct (list_eq_dec Z.eq_dec [id] [id]) as [_|N]; [|congruence].
  unfold bind at 1.
  rewrite (mark_disappeared_run id m); simpl; [|now rewrite Z.eqb_refl|auto].
  unfold lose; simpl. destruct (m + 1 >? mx); simpl;
    rewrite Z.eqb_refl; reflexivity.
Qed.

Lemma update_no_detection_no_object n mx :
  update [] {| nextObjectID := n; objectsTracked := [];
               disappeared := []; maxDisappeared := mx |}
  = (Return [],
     {| nextObjectID := n; objectsTracked := [];
        disappeared := []; maxDisappeared := mx |}).
Proof. reflexivity. Qed.

(** X4.  One face, one identity.  On a new tracker, any sequence of frames
    with exactly one detection each leaves exactly one object: it has id 1,
    the centroid of the last detection and miss counter 0, and
    [nextObjectID] is 2.  In particular the same detection fed again and
    again keeps its id and its centroid. *)
Theorem single_face_keeps_id_one :
  forall (mx : Z) (bs : list Box) (b : Box),
    run (init mx) (map (fun b' => [b']) (bs ++ [b]))
    = {| nextObjectID := 2; objectsTracked := [(1, centroid_of b)];
         disappeared := [(1, 0)]; maxDisappeared := mx |}.
Proof.
  intros mx bs b.
  assert (forall bs' c b',
             run {| nextObjectID := 2; objectsTracked := [(1, c)];
                    disappeared := [(1, 0)]; maxDisappeared := mx |}
                 (map (fun b' => [b']) (bs' ++ [b']))
             = {| nextObjectID := 2; objectsTracked := [(1, centroid_of b')];
                  disappeared := [(1, 0)]; maxDisappeared := mx |}) as Hstep.
  { induction bs' as [|b0 bs' IH]; intros c b'.
    - change (run ?s (map ?f ([] ++ [b']))) with (snd (update [b'] s)).
      now rewrite update_one_detection_one_object.
    - change (run ?s (map ?f ((b0 :: bs') ++ [b'])))
        with (run (snd (update [b0] s)) (map f (bs' ++ [b']))).
      rewrite update_one_detection_one_object. apply IH. }
  destruct bs as [|b0 bs].
  - reflexivity.
  - change (run (init mx) (map ?f ((b0 :: bs) ++ [b])))
      with (run (snd (update [b0] (init mx))) (map f (bs ++ [b]))).
    apply Hstep.
Qed.

Lemma run_one_object_then_misses mx b n :
  0 <= mx ->
  run (init mx) ([b] :: repeat [] n)
  = (if Z.of_nat n <=? mx
     then {| nextObjectID := 2; objectsTracked := [(1, centroid_of b)];
             disappeared := [(1, Z.of_nat n)]; maxDisappeared := mx |}
     else {| nextObjectID := 2; objectsTracked := [];
             disappeared := []; maxDisappeared := mx |}).
Proof.
  intros Hmx. induction n as [|n IH].
  - destruct (Z.leb_spec (Z.of_nat 0) mx); [reflexivity | lia].
  - replace ([b] :: repeat [] (S n)) with (([b] :: repeat [] n) ++ [[]]).
    2:{ simpl. f_equal. symmetry. apply repeat_cons. }
    unfold run in *. rewrite fold_left_app, IH. cbn [fold_left].
    destruct (Z.leb_spec (Z.of_nat n) mx) as [Hn|Hn].
    + rewrite update_no_detection_one_object.
      destruct (Z.leb_spec (Z.of_nat (S n)) mx) as [Hn'|Hn'];
        destruct (Z.gtb_spec (Z.of_nat n + 1) mx) as [Hg|Hg]; try lia.
      * simpl. do 3 f_equal. lia.
      * reflexivity.
    + rewrite update_no_detection_no_object.
      destruct (Z.leb_spec (Z.of_nat (S n)) mx); [lia | reflexivity].
Qed.

(** X5.  The life of a lost object, for any [maxDisappeared >= 0]: after one
    object is registered and [n] frames without detection follow, the object
    is still tracked, with miss counter [n], exactly when
    [n <= maxDisappeared]; from frame [maxDisappeared + 1] on the tracker is
    empty.  None of these calls raises. *)
Theorem lost_object_lives_maxDisappeared_frames :
  forall (mx : Z) (b : Box) (n : nat),
    0 <= mx ->
    run (init mx) ([b] :: repeat [] n)
    = (if Z.of_nat n <=? mx
       then {| nextObjectID := 2; objectsTracked := [(1, centroid_of b)];
               disappeared := [(1, Z.of_nat n)]; maxDisappeared := mx |}
       else {| nextObjectID := 2; objectsTracked := [];
               disappeared := []; maxDisappeared := mx |})
    /\ fst (update [] (run (init mx) ([b] :: repeat [] n)))
       = Return (if Z.of_nat n + 1 <=? mx then [(1, centroid_of b)] else []).
Proof.
  intros mx b n Hmx.
  split; [now apply run_one_object_then_misses|].
  rewrite run_one_object_then_misses by assumption.
  destruct (Z.leb_spec (Z.of_nat n) mx) as [Hn|Hn].
  - rewrite update_no_detection_one_object.
    destruct (Z.leb_spec (Z.of_nat n + 1) mx);
      destruct (Z.gtb_spec (Z.of_nat n + 1) mx); try lia; reflexivity.
  - rewrite update_no_detection_no_object.
    destruct (Z.leb_spec (Z.of_nat n + 1) mx); [lia | reflexivity].
Qed.

(** X6.  A face that comes back.  After one object is registered and [n]
    frames without detection, a frame with one detection gives that detection
    the old id 1 if [n <= maxDisappeared], wherever the detection is; if the
    object was missed more than [maxDisappeared] times the detection is a new
    object with id 2. *)
Theorem returning_face_keeps_id_within_maxDisappeared :
  forall (mx : Z) (b0 b : Box) (n : nat),
    0 <= mx ->
    run (init mx) ([b0] :: repeat [] n ++ [[b]])
    = (if Z.of_nat n <=? mx
       then {| nextObjectID := 2; objectsTracked := [(1, centroid_of b)];
               disappeared := [(1, 0)]; maxDisappeared := mx |}
       else {| nextObjectID := 3; objectsTracked := [(2, centroid_of b)];
               disappeared := [(2, 0)]; maxDisappeared := mx |}).
Proof.
  intros mx b0 b n Hmx.
  change ([b0] :: repeat [] n ++ [[b]]) with (([b0] :: repeat [] n) ++ [[b]]).
  unfold run. rewrite fold_left_app. fold (run (init mx) ([b0] :: repeat [] n)).
  rewrite run_one_object_then_misses by assumption. cbn [fold_left].
  destruct (Z.of_nat n <=? mx).
  - now rewrite update_one_detection_one_object.
  - reflexivity.
Qed.

(** ** A frame without detection *)

Lemma keys_app {V : Type} (d d' : OrderedDict.t V) :
  keys (d ++ d') = keys d ++ keys d'.
Proof. apply map_app. Qed.

Lemma keys_miss d : keys (map miss d) = keys d.
Proof. unfold keys. rewrite map_map. reflexivity. Qed.

Lemma getitem_middle {V : Type} (pre post : OrderedDict.t V) k v :
  ~ In k (keys pre) -> getitem (pre ++ (k, v) :: post) k = Some v.
Proof.
  intros H. rewrite getitem_app_r by assumption. simpl. now rewrite Z.eqb_refl.
Qed.

Lemma setitem_middle {V : Type} (pre post : OrderedDict.t V) k v v' :
  ~ In k (keys pre) ->
  setitem (pre ++ (k, v) :: post) k v' = pre ++ (k, v') :: post.
Proof.
  induction pre as [|[k0 v0] pre IH]; simpl; intros H.
  - now rewrite Z.eqb_refl.
  - destruct (Z.eqb_spec k k0) as [->|N]; [tauto|]. f_equal. apply IH. tauto.
Qed.

Lemma delitem_middle {V : Type} (pre post : OrderedDict.t V) k v :
  ~ In k (keys pre) -> ~ In k (keys post) ->
  delitem (pre ++ (k, v) :: post) k = pre ++ post.
Proof.
  intros H1 H2. unfold delitem. rewrite filter_app. simpl.
  rewrite Z.eqb_refl. simpl.
  fold (delitem pre k) (delitem post k). now rewrite !delitem_absent.
Qed.

(** The loop of lines 57-62 on a tracker whose counters are [pre ++ ok ++
    rest], when the keys of [ok ++ rest] are still to come: the entries of
    [ok] stay within [maxDisappeared] and are counted; the first entry of
    [rest], if any, expires and is deregistered, which ends the loop if it was
    the last entry and makes the iterator raise otherwise. *)
Lemma for_each_disappeared_key_run n mx snapshot rest : forall ok pre T,
  keys (pre ++ ok ++ rest) = snapshot ->
  keys T = snapshot ->
  NoDup snapshot ->
  Forall (fun km => snd km + 1 <= mx) ok ->
  match rest with [] => True | km :: _ => snd km + 1 > mx end ->
  for_each_disappeared_key snapshot (keys (ok ++ rest)) mark_disappeared
    {| nextObjectID := n; objectsTracked := T;
       disappeared := pre ++ ok ++ rest; maxDisappeared := mx |}
  = match rest with
    | [] =>
        (Return tt,
         {| nextObjectID := n; objectsTracked := T;
            disappeared := pre ++ map miss ok; maxDisappeared := mx |})
    | km :: post =>
        (match post with [] => Return tt | _ :: _ => Raise RuntimeError end,
         {| nextObjectID := n; objectsTracked := delitem T (fst km);
            disappeared := pre ++ map miss ok ++ post;
            maxDisappeared := mx |})
    end.
Proof.
  induction ok as [|[k m] ok IH]; intros pre T Ek ET ND Hok Hrest.
  - cbn [app map] in *. destruct rest as [|[k m] post].
    + reflexivity.
    + cbn [for_each_disappeared_key keys map fst snd] in *.
      unfold bind at 1. cbn [get_self disappeared].
      destruct (list_eq_dec Z.eq_dec (keys (pre ++ (k, m) :: post)) snapshot)
        as [_|N]; [|congruence].
      assert (~ In k (keys pre) /\ ~ In k (keys post)) as [Hpre Hpost].
      { rewrite <- Ek, keys_app in ND. simpl in ND.
        apply NoDup_remove_2 in ND. rewrite in_app_iff in ND. tauto. }
      unfold bind at 1.
      rewrite (mark_disappeared_run k m).
      2:{ cbn [disappeared]. now apply getitem_middle. }
      2:{ cbn [objectsTracked]. rewrite ET, <- Ek, keys_app.
          apply in_or_app. right. now left. }
      unfold lose. cbn [maxDisappeared nextObjectID objectsTracked disappeared].
      destruct (Z.gtb_spec (m + 1) mx) as [_|]; [|lia].
      rewrite delitem_middle by assumption.
      destruct post as [|[k' m'] post]; [reflexivity|].
      cbn [for_each_disappeared_key map fst].
      unfold bind at 1. cbn [get_self disappeared].
      destruct (list_eq_dec Z.eq_dec (keys (pre ++ (k', m') :: post)) snapshot)
        as [E|_]; [|reflexivity].
      exfalso. rewrite <- Ek in E. apply (f_equal (@length Z)) in E.
      unfold keys in E. rewrite !length_map, !length_app in E. simpl in E. lia.
  - cbn [app] in Ek. cbn [app map keys fst for_each_disappeared_key].
    unfold bind at 1. cbn [get_self disappeared].
    fold (keys (ok ++ rest)).
    destruct (list_eq_dec Z.eq_dec (keys (pre ++ (k, m) :: ok ++ rest)) snapshot)
      as [_|N]; [|congruence].
    assert (~ In k (keys pre)) as Hpre.
    { rewrite <- Ek, keys_app in ND. simpl in ND.
      apply NoDup_remove_2 in ND. rewrite in_app_iff in ND. tauto. }
    unfold bind at 1.
    rewrite (mark_disappeared_run k m).
    2:{ cbn [disappeared]. now apply getitem_middle. }
    2:{ cbn [objectsTracked]. rewrite ET, <- Ek, keys_app.
        apply in_or_app. right. now left. }
    unfold lose. cbn [maxDisappeared nextObjectID objectsTracked disappeared].
    apply Forall_cons_iff in Hok. destruct Hok as [Hm Hok']. cbn [snd] in Hm.
    destruct (Z.gtb_spec (m + 1) mx) as [|_]; [lia|].
    cbn [app]. rewrite setitem_middle by assumption.
    change (pre ++ (k, m + 1) :: ok ++ rest)
      with (pre ++ [(k, m + 1)] ++ ok ++ rest).
    rewrite app_assoc.
    fold (keys (ok ++ rest)).
    rewrite IH; try assumption.
    + destruct rest as [|km post]; rewrite <- app_assoc; reflexivity.
    + rewrite <- Ek. rewrite <- app_assoc. unfold keys.
      repeat (rewrite ?map_app; cbn [map app fst]). reflexivity.
Qed.

Lemma first_expiry mx (d : list (Z * Z)) :
  exists ok rest,
    d = ok ++ rest
    /\ Forall (fun km => snd km + 1 <= mx) ok
    /\ match rest with [] => True | km :: _ => snd km + 1 > mx end.
Proof.
  induction d as [|km d (ok & rest & E & Hok & Hrest)].
  - exists [], []. repeat split. constructor.
  - destruct (Z_le_gt_dec (snd km + 1) mx) as [Hle|Hgt].
    + exists (km :: ok), rest. subst d. repeat split; [|assumption].
      now constructor.
    + exists [], (km :: d). repeat split; [constructor | assumption].
Qed.

Lemma update_empty_run s ok rest :
  wf s ->
  disappeared s = ok ++ rest ->
  Forall (fun km => snd km + 1 <= maxDisappeared s) ok ->
  match rest with [] => True | km :: _ => snd km + 1 > maxDisappeared s end ->
  update [] s
  = match rest with
    | [] =>
        (Return (objectsTracked s),
         {| nextObjectID := nextObjectID s; objectsTracked := objectsTracked s;
            disappeared := map miss ok; maxDisappeared := maxDisappeared s |})
    | km :: post =>
        (match post with
         | [] => Return (delitem (objectsTracked s) (fst km))
         | _ :: _ => Raise RuntimeError
         end,
         {| nextObjectID := nextObjectID s;
            objectsTracked := delitem (objectsTracked s) (fst km);
            disappeared := map miss ok ++ post;
            maxDisappeared := maxDisappeared s |})
    end.
Proof.
  intros (Ek & ND & _) E Hok Hrest. rewrite update_unfold_empty.
  destruct s as [n T D mx]. cbn [nextObjectID objectsTracked disappeared
                                  maxDisappeared] in *.
  subst D.
  pose proof (for_each_disappeared_key_run n mx (keys (ok ++ rest)) rest ok []
                T eq_refl Ek) as Hrun.
  cbn [app] in Hrun. rewrite Hrun; try assumption.
  - destruct rest as [|km [|p post]]; reflexivity.
  - now rewrite <- Ek.
Qed.

(** X7.  When [update] with no detection raises.  On a well-formed tracker
    the call raises [RuntimeError] exactly when an object other than the last
    one of the dictionary reaches a miss count above [maxDisappeared]; it
    never raises anything else. *)
Theorem update_empty_raises_iff :
  forall s : FaceTracker,
    wf s ->
    (fst (update [] s) = Raise RuntimeError
     <-> Exists (fun km => snd km + 1 > maxDisappeared s)
                (removelast (disappeared s)))
    /\ forall e, fst (update [] s) = Raise e -> e = RuntimeError.
Proof.
  intros s Hwf.
  destruct (first_expiry (maxDisappeared s) (disappeared s))
    as (ok & rest & E & Hok & Hrest).
  rewrite (update_empty_run s ok rest Hwf E Hok Hrest). rewrite E.
  assert (~ Exists (fun km => snd km + 1 > maxDisappeared s) ok) as Hnone.
  { rewrite Exists_exists. intros (km & Hin & Hgt).
    rewrite Forall_forall in Hok. apply Hok in Hin. lia. }
  destruct rest as [|km [|p post]]; cbn [fst].
  - split; [|discriminate]. split; [discriminate|].
    intros H. exfalso. apply Hnone. rewrite app_nil_r in H.
    rewrite Exists_exists in *. destruct H as (x & Hin & Hx). exists x.
    split; [|assumption].
    destruct ok as [|a ok] using rev_ind; [assumption|].
    rewrite removelast_last in Hin. apply in_or_app. now left.
  - split; [|discriminate]. split; [discriminate|].
    intros H. exfalso. apply Hnone. now rewrite removelast_last in H.
  - split; [|intros e [= <-]; reflexivity]. split; [|reflexivity].
    intros _. rewrite removelast_app by discriminate.
    apply Exists_app. right. cbn [removelast]. now left.
Qed.

(** X8.  The state an aborted call leaves.  When the first object whose miss
    count exceeds [maxDisappeared] is not the last one, [update] with no
    detection raises after having counted the miss for the objects before it
    and deregistered that object; the objects after it keep their counters:
    their miss in this frame is not counted. *)
Theorem update_empty_aborts_at_first_expiry :
  forall (s : FaceTracker) (pre post : list (Z * Z)) (k m : Z),
    wf s ->
    disappeared s = pre ++ (k, m) :: post ->
    Forall (fun km => snd km + 1 <= maxDisappeared s) pre ->
    m + 1 > maxDisappeared s ->
    post <> [] ->
    update [] s
    = (Raise RuntimeError,
       {| nextObjectID := nextObjectID s;
          objectsTracked := delitem (objectsTracked s) k;
          disappeared := map miss pre ++ post;
          maxDisappeared := maxDisappeared s |}).
Proof.
  intros s pre post k m Hwf E Hpre Hm Hpost.
  rewrite (update_empty_run s pre ((k, m) :: post) Hwf E Hpre Hm).
  destruct post; [congruence | reflexivity].
Qed.

(** X9.  The frame without detection, when it goes well.  If no object other
    than the last one exceeds [maxDisappeared], [update] with no detection
    returns the dictionary of tracked objects; every object whose miss count
    stays within [maxDisappeared] is kept, in order, with its counter one
    higher, and the others are gone from both dictionaries. *)
Theorem update_empty_counts_every_miss :
  forall s : FaceTracker,
    wf s ->
    Forall (fun km => snd km + 1 <= maxDisappeared s)
           (removelast (disappeared s)) ->
    let counters :=
      map miss (filter (fun km => snd km + 1 <=? maxDisappeared s)
                       (disappeared s)) in
    let tracked :=
      filter (fun kc => contains counters (fst kc)) (objectsTracked s) in
    update [] s
    = (Return tracked,
       {| nextObjectID := nextObjectID s; objectsTracked := tracked;
          disappeared := counters; maxDisappeared := maxDisappeared s |}).
Proof.
  intros s Hwf Hok counters tracked.
  assert (forall d : list (Z * Z),
             Forall (fun km => snd km + 1 <= maxDisappeared s) d ->
             filter (fun km => snd km + 1 <=? maxDisappeared s) d = d)
    as Hfilter.
  { intros d Hd. apply forallb_filter_id. apply forallb_forall.
    rewrite Forall_forall in Hd. intros x Hx. apply Z.leb_le. now apply Hd. }
  assert (forall d (T : OrderedDict.t Centroid),
             incl (keys T) (keys d) ->
             filter (fun kc => contains (map miss d) (fst kc)) T = T) as Hall.
  { intros d T Hincl. apply forallb_filter_id. apply forallb_forall.
    intros kc Hkc. apply contains_In. rewrite keys_miss. apply Hincl.
    now apply in_map. }
  destruct Hwf as (Ek & ND & Hlt).
  assert (wf s) as Hwf by (repeat split; assumption).
  destruct (disappeared s) as [|a d] eqn:ED using rev_ind.
  - rewrite (update_empty_run s [] [] Hwf ED); [|constructor|exact I].
    subst counters tracked. simpl.
    destruct (objectsTracked s); [reflexivity | discriminate].
  - clear IHd. rewrite removelast_last in Hok.
    destruct (Z_le_gt_dec (snd a + 1) (maxDisappeared s)) as [Hle|Hgt].
    + assert (Forall (fun km => snd km + 1 <= maxDisappeared s) (d ++ [a]))
        as Hok' by (apply Forall_app; split; [assumption | now constructor]).
      rewrite (update_empty_run s (d ++ [a]) [] Hwf); trivial.
      2:{ now rewrite app_nil_r. }
      subst counters tracked. rewrite Hfilter by assumption.
      rewrite Hall; [reflexivity|]. rewrite Ek. apply incl_refl.
    + rewrite (update_empty_run s d [a] Hwf ED Hok Hgt).
      subst counters tracked. rewrite filter_app, Hfilter by assumption.
      cbn [filter]. destruct (Z.leb_spec (snd a + 1) (maxDisappeared s));
        [lia|]. rewrite !app_nil_r.
      assert (filter (fun kc => contains (map miss d) (fst kc))
                     (objectsTracked s)
              = delitem (objectsTracked s) (fst a)) as ->; [|reflexivity].
      unfold delitem. apply filter_ext_in. intros kc Hkc.
      assert (In (fst kc) (keys (d ++ [a]))) as Hin
          by (rewrite <- Ek; now apply in_map).
      rewrite Ek, keys_app in ND. rewrite keys_app in Hin.
      apply in_app_or in Hin. cbn [keys map] in Hin, ND.
      destruct (Z.eqb_spec (fst a) (fst kc)) as [Ea|Na]; cbn [negb].
      * apply contains_false. rewrite keys_miss, <- Ea.
        intros Hd. apply NoDup_remove_2 in ND. apply ND.
        rewrite app_nil_r. exact Hd.
      * apply contains_In. rewrite keys_miss.
        destruct Hin as [Hin|[Hin|[]]]; [assumption | congruence].
Qed.

(** ** The two ways a frame with objects and detections ends *)

Lemma update_more_detections rect s :
  wf s -> objectsTracked s <> [] ->
  (length (objectsTracked s) < length rect)%nat ->
  let ic := map centroid_of rect in
  let s1 := after_matching s ic in
  let cs := map (fun col => nth col ic (0, 0))
                (range_difference (length ic)
                                  (rev (map snd (matching s ic)))) in
  update rect s
  = (Return (objectsTracked (register_all cs s1)), register_all cs s1).
Proof.
  intros Hwf Htr Hlen ic s1 cs.
  destruct rect as [|b rect]; [simpl in Hlen; lia|].
  assert (ic <> []) as Hic by discriminate.
  rewrite update_unfold_nonempty. fold ic.
  assert ((len (objectsTracked s) =? 0)%nat = false) as ->.
  { apply Nat.eqb_neq. unfold len. destruct (objectsTracked s);
      [congruence | discriminate]. }
  rewrite match_detections_run by assumption.
  unfold settle_unmatched.
  assert (length ic = length (b :: rect)) as Elen by apply length_map.
  assert ((length ic <=? length (objectsTracked s))%nat = false) as ->
      by (apply Nat.leb_gt; lia).
  rewrite for_each_register_cols.
  2:{ apply Forall_forall. intros c Hc. apply range_difference_In in Hc. lia. }
  rewrite for_each_register_all by now apply after_matching_wf.
  reflexivity.
Qed.

Lemma update_fewer_detections rect s :
  wf s -> rect <> [] ->
  (length rect <= length (objectsTracked s))%nat ->
  let ic := map centroid_of rect in
  let s1 := after_matching s ic in
  let ids := keys (objectsTracked s) in
  let lost := map (fun r => nth r ids 0)
                  (range_difference (length (objectsTracked s))
                                    (rev (map fst (matching s ic)))) in
  exists s',
    update rect s = (Return (objectsTracked s'), s')
    /\ wf s'
    /\ nextObjectID s' = nextObjectID s
    /\ maxDisappeared s' = maxDisappeared s
    /\ (forall k, ~ In k lost ->
          getitem (objectsTracked s') k = getitem (objectsTracked s1) k
          /\ getitem (disappeared s') k = getitem (disappeared s1) k)
    /\ (forall k m, In k lost ->
          getitem (disappeared s1) k = Some m ->
          if m + 1 >? maxDisappeared s
          then getitem (objectsTracked s') k = None
               /\ getitem (disappeared s') k = None
          else getitem (objectsTracked s') k = getitem (objectsTracked s1) k
               /\ getitem (disappeared s') k = Some (m + 1)).
Proof.
  intros Hwf Hrect Hlen ic s1 ids lost.
  destruct rect as [|b rect]; [congruence|].
  assert (ic <> []) as Hic by discriminate.
  assert (objectsTracked s <> []) as Htr.
  { intros E. rewrite E in Hlen. simpl in Hlen. lia. }
  rewrite update_unfold_nonempty. fold ic.
  assert ((len (objectsTracked s) =? 0)%nat = false) as ->.
  { apply Nat.eqb_neq. unfold len. destruct (objectsTracked s);
      [congruence | discriminate]. }
  rewrite match_detections_run by assumption.
  unfold settle_unmatched.
  assert (length ic = length (b :: rect)) as Elen by apply length_map.
  assert ((length ic <=? length (objectsTracked s))%nat = true) as ->
      by (apply Nat.leb_le; lia).
  assert (length ids = length (objectsTracked s)) as Eids by apply length_map.
  pose proof (after_matching_wf s ic Hwf Hic) as Hwf1.
  destruct (after_matching_keys s ic Hwf Hic) as [Ek1 Ek1'].
  assert (nextObjectID s1 = nextObjectID s
          /\ maxDisappeared s1 = maxDisappeared s) as [Fn1 Fm1]
      by apply assign_all_fields.
  destruct (for_each_lost ids
              (range_difference (length (objectsTracked s))
                                (rev (map fst (matching s ic)))) s1 Hwf1)
    as (s' & Hrun & Hwf' & Hn & Hm & Hk & Hother & Hlost).
  { apply Forall_forall. intros r Hr. apply range_difference_In in Hr. lia. }
  { apply NoDup_map_nth.
    - apply Hwf.
    - apply range_difference_NoDup.
    - apply Forall_forall. intros r Hr.
      apply range_difference_In in Hr. lia. }
  { intros r Hr. apply range_difference_In in Hr. unfold s1. rewrite Ek1.
    apply nth_In. fold ids. lia. }
  fold ids s1. rewrite Hrun. exists s'.
  split; [reflexivity|]. split; [assumption|]. split; [congruence|].
  split; [congruence|]. split; [exact Hother|].
  intros k m Hin Hm0. specialize (Hlost k m Hin Hm0).
  now rewrite Fm1 in Hlost.
Qed.

(** ** What the matching leaves in the result *)

Section Result.

Variables (s : FaceTracker) (rect : list Box).
Hypothesis Hwf : wf s.
Hypothesis Hrect : rect <> [].
Hypothesis Htracked : objectsTracked s <> [].

Lemma centroids_nonempty : map centroid_of rect <> [].
Proof. destruct rect; [congruence | discriminate]. Qed.

Lemma matched_in_result r c :
  In (r, c) (matching s (map centroid_of rect)) ->
  getitem (objectsTracked (snd (update rect s)))
          (nth r (keys (objectsTracked s)) 0)
  = Some (nth c (map centroid_of rect) (0, 0))
  /\ getitem (disappeared (snd (update rect s)))
             (nth r (keys (objectsTracked s)) 0)
     = Some 0.
Proof.
  intros Hin. pose proof centroids_nonempty as Hic.
  set (ic := map centroid_of rect) in *.
  set (ids := keys (objectsTracked s)).
  assert (length ids = length (objectsTracked s)) as Eids by apply length_map.
  destruct (matching_valid s ic Hic _ Hin) as (_ & Hr & Hc). cbn [fst snd] in *.
  fold ids in Hr.
  destruct (after_matching_row s ic Hwf Hic r Hr) as [Hmatched _].
  cbv zeta in Hmatched. fold ids in Hmatched.
  destruct (Hmatched c Hin) as [H1 H2].
  pose proof (after_matching_wf s ic Hwf Hic) as Hwf1.
  destruct (after_matching_keys s ic Hwf Hic) as [Ek1 _].
  destruct (Nat.le_gt_cases (length rect) (length (objectsTracked s)))
    as [Hle|Hgt].
  - destruct (update_fewer_detections rect s Hwf Hrect Hle)
      as (s' & Hrun & _ & _ & _ & Hother & _).
    rewrite Hrun. cbn [snd]. fold ic ids in Hother.
    destruct (Hother (nth r ids 0)) as [H3 H4]; [|split; congruence].
    intros Hin'. apply in_map_iff in Hin'. destruct Hin' as (r' & E' & Hr').
    apply range_difference_In in Hr'. destruct Hr' as [Hr' Hfree].
    assert (r' = r).
    { destruct Hwf as (_ & ND & _).
      apply (proj1 (NoDup_nth ids 0) ND); [lia | lia | congruence]. }
    subst r'. apply Hfree. rewrite <- in_rev.
    apply in_map_iff. exists (r, c). auto.
  - rewrite (update_more_detections rect s Hwf Htracked Hgt). cbn [snd].
    fold ic.
    match goal with
    | |- context [register_all ?cs _] =>
        destruct (register_all_old cs (after_matching s ic) Hwf1 (nth r ids 0))
          as [H3 H4]
    end.
    { rewrite Ek1. apply nth_In. exact Hr. }
    split; congruence.
Qed.

Lemma unmatched_in_result r :
  (r < length (objectsTracked s))%nat ->
  ~ In r (map fst (matching s (map centroid_of rect))) ->
  let k := nth r (keys (objectsTracked s)) 0 in
  getitem (objectsTracked (snd (update rect s))) k
  = getitem (objectsTracked s) k
  \/ getitem (objectsTracked (snd (update rect s))) k = None.
Proof.
  intros Hr Hnot k. pose proof centroids_nonempty as Hic.
  set (ic := map centroid_of rect) in *.
  set (ids := keys (objectsTracked s)) in *.
  assert (length ids = length (objectsTracked s)) as Eids by apply length_map.
  assert (r < length ids)%nat as Hr' by lia.
  destruct (after_matching_row s ic Hwf Hic r Hr') as [_ Hsame].
  cbv zeta in Hsame. fold ids k in Hsame.
  destruct (Hsame Hnot) as [H1 H2].
  pose proof (after_matching_wf s ic Hwf Hic) as Hwf1.
  destruct (after_matching_keys s ic Hwf Hic) as [Ek1 _].
  assert (In k (keys (objectsTracked (after_matching s ic)))) as Hk1.
  { rewrite Ek1. apply nth_In. exact Hr'. }
  destruct (Nat.le_gt_cases (length rect) (length (objectsTracked s)))
    as [Hle|Hgt].
  - destruct (update_fewer_detections rect s Hwf Hrect Hle)
      as (s' & Hrun & _ & _ & _ & _ & Hlost).
    rewrite Hrun. cbn [snd]. fold ic ids in Hlost.
    destruct (wf_getitem _ k Hwf1 Hk1) as (m & Hm).
    assert (In k (map (fun r => nth r ids 0)
                      (range_difference (length (objectsTracked s))
                         (rev (map fst (matching s ic)))))) as Hin.
    { apply in_map_iff. exists r. split; [reflexivity|].
      apply range_difference_In. rewrite <- in_rev. split; assumption. }
    specialize (Hlost k m Hin Hm).
    destruct (m + 1 >? maxDisappeared s).
    + right. apply Hlost.
    + left. destruct Hlost as [H3 _]. congruence.
  - rewrite (update_more_detections rect s Hwf Htracked Hgt). cbn [snd].
    fold ic.
    match goal with
    | |- context [register_all ?cs _] =>
        destruct (register_all_old cs (after_matching s ic) Hwf1 k Hk1)
          as [H3 H4]
    end.
    left. congruence.
Qed.

(** The column chosen for a row is a nearest detection. *)
Lemma nearest_detection (a : Centroid) :
  let ic := map centroid_of rect in
  let c := argmin (map (sqdist a) ic) in
  (c < length rect)%nat
  /\ sqdist a (nth c ic (0, 0)) = row_min (map (sqdist a) ic)
  /\ forall j, (j < length rect)%nat ->
               sqdist a (nth c ic (0, 0)) <= sqdist a (nth j ic (0, 0)).
Proof.
  intros ic c. pose proof centroids_nonempty as Hic. fold ic in Hic.
  assert (map (sqdist a) ic <> []) as Hrow
      by (destruct ic; [congruence | discriminate]).
  destruct (argmin_spec _ Hrow) as (Hlt & Hmin & _). fold c in Hlt, Hmin.
  assert (length (map (sqdist a) ic) = length rect) as El
      by (unfold ic; now rewrite !length_map).
  assert (forall j, (j < length rect)%nat ->
                    nth j (map (sqdist a) ic) 0 = sqdist a (nth j ic (0, 0)))
    as Hnth.
  { intros j Hj. rewrite (nth_indep _ 0 (sqdist a (0, 0))) by lia.
    apply map_nth. }
  split; [lia|]. split.
  - rewrite <- Hnth by lia. exact Hmin.
  - intros j Hj. rewrite <- !Hnth by lia. rewrite Hmin.
    pose proof (row_min_le (map (sqdist a) ic)) as Hle.
    rewrite Forall_forall in Hle. apply Hle. apply nth_In. lia.
Qed.

(** The first pair of the walk is always accepted. *)
Lemma first_pair_accepted :
  exists r c rest,
    pairs_of s (map centroid_of rect) = (r, c) :: rest
    /\ In (r, c) (matching s (map centroid_of rect)).
Proof.
  destruct (pairs_of s (map centroid_of rect)) as [|[r c] rest] eqn:E.
  - exfalso. apply (f_equal (map fst)) in E.
    rewrite pairs_of_fst in E.
    apply (f_equal (@length nat)) in E.
    unfold row_order in E.
    rewrite argsort_length, length_map, cdist_length in E.
    unfold values in E. rewrite length_map in E.
    destruct (objectsTracked s); [congruence | discriminate].
  - exists r, c, rest. split; [reflexivity|].
    unfold matching. rewrite E. cbn. now left.
Qed.

End Result.

(** ** Counting the unused indices *)

Lemma range_difference_length n used :
  NoDup used -> Forall (fun i => (i < n)%nat) used ->
  (length (range_difference n used) + length used = n)%nat.
Proof.
  intros ND Hlt.
  assert (Permutation (range_difference n used ++ used) (seq 0 n)) as P.
  { apply NoDup_Permutation.
    - apply NoDup_app; [apply range_difference_NoDup | assumption |].
      intros i Hi. apply range_difference_In in Hi. tauto.
    - apply seq_NoDup.
    - intros i. rewrite in_app_iff, range_difference_In, in_seq.
      rewrite Forall_forall in Hlt. split.
      + intros [[H _]|H]; [lia | apply Hlt in H; lia].
      + intros H. destruct (in_dec Nat.eq_dec i used); [now right | left].
        split; [lia | assumption]. }
  apply Permutation_length in P. rewrite length_app, length_seq in P. exact P.
Qed.

Lemma matching_length s rect :
  wf s -> rect <> [] -> objectsTracked s <> [] ->
  (1 <= length (matching s (map centroid_of rect))
   <= length (objectsTracked s))%nat.
Proof.
  intros Hwf Hrect Htr. pose proof (centroids_nonempty rect Hrect) as Hic.
  split.
  - destruct (first_pair_accepted s rect Htr) as (r & c & rest & _ & Hin).
    destruct (matching s (map centroid_of rect)); [destruct Hin | simpl; lia].
  - rewrite <- (length_map fst (matching s _)).
    apply Nat.le_trans with (length (seq 0 (length (objectsTracked s))));
      [|now rewrite length_seq].
    apply NoDup_incl_length; [apply accepted_NoDup|].
    intros r Hr. apply in_map_iff in Hr. destruct Hr as ([r' c] & <- & Hin).
    apply (matching_valid s _ Hic) in Hin. cbn [fst snd] in *.
    apply in_seq. unfold keys in Hin. rewrite length_map in Hin. lia.
Qed.

Lemma getitem_zero_counters ids k m :
  getitem (map (fun k => (k, 0)) ids) k = Some m -> m = 0.
Proof.
  induction ids as [|i ids IH]; simpl; [discriminate|].
  destruct (k =? i); [congruence | exact IH].
Qed.

Lemma getitem_zero_counters_In ids k :
  In k ids -> getitem (map (fun k => (k, 0)) ids) k = Some 0.
Proof.
  induction ids as [|i ids IH]; simpl; [tauto|].
  destruct (Z.eqb_spec k i); [reflexivity|]. intros [E|H]; [congruence | auto].
Qed.

Lemma getitem_combine_In (ids : list Z) (cs : list Centroid) k :
  length ids = length cs -> In k ids ->
  exists c, getitem (combine ids cs) k = Some c /\ In c cs.
Proof.
  revert cs. induction ids as [|i ids IH]; intros [|c cs] E Hin;
    simpl in *; try tauto; try discriminate.
  destruct (Z.eqb_spec k i) as [->|N].
  - exists c. auto.
  - destruct Hin as [Hin|Hin]; [congruence|].
    destruct (IH cs) as (c' & H1 & H2); [lia | assumption|].
    exists c'. auto.
Qed.

(** ** The miss counters stay within [maxDisappeared] *)

Lemma getitem_Some_In {V : Type} (d : OrderedDict.t V) k v :
  getitem d k = Some v -> In (k, v) d.
Proof.
  induction d as [|[k' v'] d IH]; simpl; [discriminate|].
  destruct (Z.eqb_spec k k') as [->|N].
  - intros [= ->]. now left.
  - intros H. right. auto.
Qed.

Lemma In_getitem {V : Type} (d : OrderedDict.t V) k v :
  NoDup (keys d) -> In (k, v) d -> getitem d k = Some v.
Proof.
  induction d as [|[k' v'] d IH]; simpl; [tauto|].
  intros ND [E|H].
  - injection E as -> ->. now rewrite Z.eqb_refl.
  - inversion ND as [|x l Hx ND']; subst.
    destruct (Z.eqb_spec k k') as [->|N]; [|auto].
    exfalso. apply Hx. change k' with (fst (k', v)). now apply in_map.
Qed.

Lemma assign_bounded objectID centroid s :
  0 <= maxDisappeared s -> counters_bounded s ->
  counters_bounded (assign objectID centroid s).
Proof.
  intros Hmx Hb k m. unfold assign. cbn [disappeared maxDisappeared].
  destruct (Z.eq_dec objectID k) as [->|N].
  - rewrite getitem_setitem_same. intros [= <-]. lia.
  - rewrite getitem_setitem_other by assumption. apply Hb.
Qed.

Lemma assign_all_bounded objectIDs inputCentroid pairs : forall s,
  0 <= maxDisappeared s -> counters_bounded s ->
  counters_bounded (assign_all objectIDs inputCentroid pairs s).
Proof.
  induction pairs as [|rc pairs IH]; intros s Hmx Hb; [exact Hb|].
  rewrite assign_all_cons. apply IH; [exact Hmx | now apply assign_bounded].
Qed.

Lemma register_all_bounded cs s :
  0 <= maxDisappeared s -> counters_bounded s ->
  counters_bounded (register_all cs s).
Proof.
  intros Hmx Hb k m. unfold register_all. cbn [disappeared maxDisappeared].
  destruct (in_dec Z.eq_dec k (keys (disappeared s))) as [Hin|Hnot].
  - rewrite getitem_app_l by assumption. apply Hb.
  - rewrite getitem_app_r by assumption. intros H.
    apply getitem_zero_counters in H. lia.
Qed.

Lemma update_bounded rect s :
  wf s -> 0 <= maxDisappeared s -> counters_bounded s ->
  counters_bounded (snd (update rect s)).
Proof.
  intros Hwf Hmx Hb. destruct rect as [|b rect].
  - (* no detection *)
    destruct (first_expiry (maxDisappeared s) (disappeared s))
      as (ok & rest & E & Hok & Hrest).
    assert (NoDup (keys (ok ++ rest))) as ND.
    { rewrite <- E. destruct Hwf as (<- & ND & _). exact ND. }
    assert (forall post k m,
               incl post rest ->
               getitem (map miss ok ++ post) k = Some m ->
               0 <= m <= maxDisappeared s) as Hcount.
    { intros post k m Hincl H. apply getitem_Some_In in H.
      apply in_app_or in H. destruct H as [H|H].
      - apply in_map_iff in H. destruct H as ([k0 m0] & [= <- <-] & Hin).
        rewrite Forall_forall in Hok. pose proof (Hok _ Hin) as Hle.
        cbn [snd] in *.
        assert (0 <= m0 <= maxDisappeared s); [|lia].
        apply (Hb k0). rewrite E. apply In_getitem; [exact ND|].
        apply in_or_app. now left.
      - apply (Hb k). rewrite E. apply In_getitem; [exact ND|].
        apply in_or_app. right. now apply Hincl. }
    rewrite (update_empty_run s ok rest Hwf E Hok Hrest).
    intros k m. destruct rest as [|km post]; cbn [snd disappeared maxDisappeared].
    + rewrite <- (app_nil_r (map miss ok)). apply Hcount. apply incl_refl.
    + apply Hcount. apply incl_tl, incl_refl.
  - assert (b :: rect <> []) as Hrect by discriminate.
    pose proof (centroids_nonempty _ Hrect) as Hic.
    destruct (objectsTracked s) as [|kv tracked] eqn:Etracked.
    + (* nothing tracked *)
      rewrite update_unfold_nonempty, Etracked. cbn [len length Nat.eqb].
      rewrite for_each_register_all by assumption.
      now apply register_all_bounded.
    + assert (objectsTracked s <> []) as Htr by (rewrite Etracked; discriminate).
      clear Etracked.
      assert (counters_bounded (after_matching s (map centroid_of (b :: rect))))
        as Hb1 by now apply assign_all_bounded.
      assert (maxDisappeared (after_matching s (map centroid_of (b :: rect)))
              = maxDisappeared s) as Fm1 by apply assign_all_fields.
      destruct (Nat.le_gt_cases (length (b :: rect)) (length (objectsTracked s)))
        as [Hle|Hgt].
      * destruct (update_fewer_detections _ s Hwf Hrect Hle)
          as (s' & Hrun & _ & _ & Hm & Hother & Hlost).
        rewrite Hrun. cbn [snd]. intros k m' H. rewrite Hm.
        match type of Hother with
        | forall k, ~ In k ?l -> _ =>
            destruct (in_dec Z.eq_dec k l) as [Hin|Hnot]
        end.
        -- assert (exists m, getitem (disappeared
                      (after_matching s (map centroid_of (b :: rect)))) k
                             = Some m) as (m & Em).
           { apply getitem_In.
             destruct (after_matching_keys s _ Hwf Hic) as [_ ->].
             destruct Hwf as (<- & _). apply in_map_iff in Hin.
             destruct Hin as (r & <- & Hr). apply nth_In.
             apply range_difference_In in Hr. unfold keys.
             rewrite length_map. lia. }
           specialize (Hlost k m Hin Em). apply Hb1 in Em. rewrite Fm1 in Em.
           destruct (Z.gtb_spec (m + 1) (maxDisappeared s)) as [Hgt|Hle'].
           ++ destruct Hlost as [_ H']. congruence.
           ++ destruct Hlost as [_ H']. rewrite H' in H. injection H as <-. lia.
        -- destruct (Hother k Hnot) as [_ H']. rewrite H' in H.
           apply Hb1 in H. now rewrite Fm1 in H.
      * rewrite (update_more_detections _ s Hwf Htr Hgt). cbn [snd].
        apply register_all_bounded; [now rewrite Fm1 | exact Hb1].
Qed.

(** X10.  With [maxDisappeared >= 0], after any sequence of calls on a new
    tracker, calls that raised included, every miss counter is between 0 and
    [maxDisappeared]. *)
Theorem counters_stay_within_maxDisappeared :
  forall (mx : Z) (frames : list (list Box)) (k m : Z),
    0 <= mx ->
    getitem (disappeared (run (init mx) frames)) k = Some m ->
    0 <= m <= mx.
Proof.
  intros mx frames k m Hmx.
  assert (forall s, wf s -> maxDisappeared s = mx -> counters_bounded s ->
                    counters_bounded (run s frames)
                    /\ maxDisappeared (run s frames) = mx) as Hinv.
  { induction frames as [|rect frames IH]; intros s Hwf Em Hb; [now split|].
    change (run s (rect :: frames)) with (run (snd (update rect s)) frames).
    destruct (update_spec rect s Hwf) as (o & s' & Hrun & Hwf' & _ & Hm' & _).
    apply IH.
    - rewrite Hrun. exact Hwf'.
    - rewrite Hrun. cbn [snd]. congruence.
    - apply update_bounded; [exact Hwf | lia | exact Hb]. }
  destruct (Hinv (init mx)) as [Hb Em].
  - apply init_wf.
  - reflexivity.
  - intros k' m' H. discriminate H.
  - intros H. apply Hb in H. now rewrite Em in H.
Qed.

(** X11.  The two dictionaries hold the same ids.  After any sequence of
    calls on a new tracker, calls that raised included, [objectsTracked] and
    [disappeared] have the same keys in the same order, and [maxDisappeared]
    is the value given at construction. *)
Theorem dictionaries_hold_the_same_ids :
  forall (mx : Z) (frames : list (list Box)),
    keys (objectsTracked (run (init mx) frames))
    = keys (disappeared (run (init mx) frames))
    /\ maxDisappeared (run (init mx) frames) = mx.
Proof.
  intros mx frames. split.
  - apply (run_wf_later frames (init mx) (init_wf mx)).
  - assert (forall s, wf s -> maxDisappeared (run s frames) = maxDisappeared s)
      as Hinv.
    { induction frames as [|rect frames IH]; intros s Hwf; [reflexivity|].
      change (run s (rect :: frames)) with (run (snd (update rect s)) frames).
      destruct (update_spec rect s Hwf) as (o & s' & Hrun & Hwf' & _ & Hm' & _).
      rewrite Hrun. cbn [snd]. rewrite IH; assumption. }
    apply (Hinv (init mx) (init_wf mx)).
Qed.

(** X12.  A frame with detections never raises.  On a well-formed tracker
    [update] with at least one detection returns, and what it returns is the
    tracker's own dictionary [objectsTracked] as the call leaves it; the
    tracker stays well formed. *)
Theorem update_with_detections_returns :
  forall (s : FaceTracker) (rect : list Box),
    wf s -> rect <> [] ->
    fst (update rect s) = Return (objectsTracked (snd (update rect s)))
    /\ wf (snd (update rect s)).
Proof.
  intros s rect Hwf Hrect.
  destruct (update_spec rect s Hwf) as (o & s' & Hrun & Hwf' & _ & _ & Ho & _).
  rewrite Hrun. cbn [fst snd]. split; [|exact Hwf'].
  destruct Ho as [->|[E _]]; [reflexivity | congruence].
Qed.

(** ** The matching *)

Lemma getitem_nth {V : Type} (d : OrderedDict.t V) (dflt : V) r :
  NoDup (keys d) -> (r < length d)%nat ->
  getitem d (nth r (keys d) 0) = Some (nth r (values d) dflt).
Proof.
  revert r. induction d as [|[k v] d IH]; intros r ND Hr; simpl in *; [lia|].
  inversion ND as [|k' l Hk ND']; subst.
  destruct r as [|r].
  - now rewrite Z.eqb_refl.
  - destruct (Z.eqb_spec (nth r (keys d) 0) k) as [E|N].
    + exfalso. apply Hk. rewrite <- E. apply nth_In.
      unfold keys. rewrite length_map. lia.
    + apply IH; [assumption | lia].
Qed.

(** X13.  The matching is one to one and goes to a nearest detection.  When
    objects are tracked and detections are present, [update] moves at least
    one object; the objects it moves go to pairwise different detections,
    each to a detection nearest to its previous centroid, with the miss
    counter reset to 0; every other object keeps its centroid or is
    deregistered. *)
Theorem matched_objects_take_distinct_nearest_detections :
  forall (s : FaceTracker) (rect : list Box),
    wf s -> rect <> [] -> objectsTracked s <> [] ->
    let inputCentroid := map centroid_of rect in
    let objectIDs := keys (objectsTracked s) in
    let objectsCentroid := values (objectsTracked s) in
    let s' := snd (update rect s) in
    exists pairs : list (nat * nat),
      pairs <> []
      /\ NoDup (map fst pairs)
      /\ NoDup (map snd pairs)
      /\ (forall row col, In (row, col) pairs ->
            (row < length objectIDs)%nat
            /\ (col < length rect)%nat
            /\ (forall j, (j < length rect)%nat ->
                  sqdist (nth row objectsCentroid (0, 0))
                         (nth col inputCentroid (0, 0))
                  <= sqdist (nth row objectsCentroid (0, 0))
                            (nth j inputCentroid (0, 0)))
            /\ getitem (objectsTracked s') (nth row objectIDs 0)
               = Some (nth col inputCentroid (0, 0))
            /\ getitem (disappeared s') (nth row objectIDs 0) = Some 0)
      /\ (forall row, (row < length objectIDs)%nat ->
            ~ In row (map fst pairs) ->
            getitem (objectsTracked s') (nth row objectIDs 0)
            = Some (nth row objectsCentroid (0, 0))
            \/ getitem (objectsTracked s') (nth row objectIDs 0) = None).
Proof.
  intros s rect Hwf Hrect Htr ic ids cents s'.
  pose proof (centroids_nonempty rect Hrect) as Hic. fold ic in Hic.
  assert (length ids = length (objectsTracked s)) as Eids by apply length_map.
  exists (matching s ic).
  split.
  { destruct (first_pair_accepted s rect Htr) as (r & c & rest & _ & Hin).
    fold ic in Hin. intros E. rewrite E in Hin. destruct Hin. }
  split; [apply accepted_NoDup|]. split; [apply accepted_NoDup|].
  split.
  - intros r c Hin.
    destruct (matching_valid s ic Hic _ Hin) as (Hp & Hr & Hc).
    cbn [fst snd] in Hr, Hc.
    destruct (pairs_of_valid s ic Hic _ Hp) as (_ & _ & Ec).
    cbn [fst snd] in Ec. fold cents in Ec.
    destruct (nearest_detection rect Hrect (nth r cents (0, 0)))
      as (_ & _ & Hnear).
    fold ic in Hnear. rewrite <- Ec in Hnear.
    split; [exact Hr|]. split; [unfold ic in Hc; now rewrite length_map in Hc|].
    split; [exact Hnear|].
    apply (matched_in_result s rect Hwf Hrect Htr r c Hin).
  - intros r Hr Hnot.
    destruct (unmatched_in_result s rect Hwf Hrect Htr r) as [H|H];
      [lia | exact Hnot | left | right; exact H].
    fold ids s' in H. rewrite H. apply getitem_nth; [apply Hwf | lia].
Qed.

(** X14.  The nearest pair is always matched.  When objects are tracked and
    detections are present, an object and a detection whose distance is the
    smallest of the whole distance matrix are matched: the object gets the
    centroid of that detection and miss counter 0, however far apart the two
    are. *)
Theorem nearest_pair_is_matched :
  forall (s : FaceTracker) (rect : list Box),
    wf s -> rect <> [] -> objectsTracked s <> [] ->
    let inputCentroid := map centroid_of rect in
    let objectIDs := keys (objectsTracked s) in
    let objectsCentroid := values (objectsTracked s) in
    let s' := snd (update rect s) in
    exists row col : nat,
      (row < length objectIDs)%nat
      /\ (col < length rect)%nat
      /\ (forall row' col', (row' < length objectIDs)%nat ->
            (col' < length rect)%nat ->
            sqdist (nth row objectsCentroid (0, 0))
                   (nth col inputCentroid (0, 0))
            <= sqdist (nth row' objectsCentroid (0, 0))
                      (nth col' inputCentroid (0, 0)))
      /\ getitem (objectsTracked s') (nth row objectIDs 0)
         = Some (nth col inputCentroid (0, 0))
      /\ getitem (disappeared s') (nth row objectIDs 0) = Some 0.
Proof.
  intros s rect Hwf Hrect Htr ic ids cents s'.
  pose proof (centroids_nonempty rect Hrect) as Hic. fold ic in Hic.
  destruct (first_pair_accepted s rect Htr)
    as (r & c & rest & Ep & Hin).
  fold ic in Ep, Hin. exists r, c.
  assert (In (r, c) (pairs_of s ic)) as Hp by (rewrite Ep; now left).
  destruct (pairs_of_valid s ic Hic _ Hp) as (Hr & Hc & Ec).
  cbn [fst snd] in Hr, Hc, Ec. fold ids cents in Hr, Ec.
  split; [exact Hr|].
  split; [unfold ic in Hc; now rewrite length_map in Hc|].
  split; [|apply (matched_in_result s rect Hwf Hrect Htr r c Hin)].
  intros r' c' Hr' Hc'.
  assert (length cents = length ids) as Ecents
      by (unfold cents, ids, values, keys; now rewrite !length_map).
  set (objDist := cdist cents ic).
  set (v := map row_min objDist).
  assert (forall i, (i < length ids)%nat ->
                    nth i v 0 = row_min (map (sqdist (nth i cents (0, 0))) ic))
    as Hv.
  { intros i Hi. unfold v.
    transitivity (row_min (nth i objDist [])).
    - exact (map_nth row_min objDist [] i).
    - unfold objDist. rewrite cdist_nth by lia. reflexivity. }
  destruct (nearest_detection rect Hrect (nth r cents (0, 0)))
    as (_ & Emin & _).
  destruct (nearest_detection rect Hrect (nth r' cents (0, 0)))
    as (_ & Emin' & Hnear').
  fold ic in Emin, Emin', Hnear'. rewrite <- Ec in Emin.
  rewrite Emin. apply Z.le_trans with
    (sqdist (nth r' cents (0, 0))
            (nth (argmin (map (sqdist (nth r' cents (0, 0))) ic)) ic (0, 0)));
    [|now apply Hnear'].
  rewrite Emin', <- !Hv by assumption.
  pose proof (argsort_sorted v) as Hsorted.
  assert (row_order objDist = r :: map fst rest) as Erows.
  { unfold objDist, cents. rewrite <- pairs_of_fst, Ep. reflexivity. }
  change (argsort v) with (row_order objDist) in Hsorted.
  rewrite Erows in Hsorted.
  apply StronglySorted_inv in Hsorted. destruct Hsorted as [_ Hall].
  assert (In r' (row_order objDist)) as Hin'.
  { apply row_order_In. unfold objDist. rewrite cdist_length. lia. }
  rewrite Erows in Hin'. destruct Hin' as [<-|Hin']; [lia|].
  rewrite Forall_forall in Hall. exact (Hall r' Hin').
Qed.

(** ** Growth *)

(** X15.  Growth.  When objects are tracked and the detections outnumber
    them, [update] registers at least as many new objects as there are
    detections in excess, and fewer than there are detections: at least one
    detection goes to a tracked object.  The new ids are [nextObjectID],
    [nextObjectID + 1], ... appended after the old keys in that order, each
    with miss counter 0 and the centroid of a detection of the frame. *)
Theorem new_ids_when_detections_outnumber_objects :
  forall (s : FaceTracker) (rect : list Box),
    wf s -> objectsTracked s <> [] ->
    (length (objectsTracked s) < length rect)%nat ->
    let s' := snd (update rect s) in
    exists n : nat,
      (length rect - length (objectsTracked s) <= n < length rect)%nat
      /\ nextObjectID s' = nextObjectID s + Z.of_nat n
      /\ keys (objectsTracked s')
         = keys (objectsTracked s)
           ++ map (fun i => nextObjectID s + Z.of_nat i) (seq 0 n)
      /\ forall k, nextObjectID s <= k < nextObjectID s' ->
           getitem (disappeared s') k = Some 0
           /\ exists c, In c (map centroid_of rect)
                        /\ getitem (objectsTracked s') k = Some c.
Proof.
  intros s rect Hwf Htr Hlen s'.
  assert (rect <> []) as Hrect by (intros E; rewrite E in Hlen; simpl in Hlen; lia).
  pose proof (centroids_nonempty rect Hrect) as Hic.
  unfold s'. rewrite (update_more_detections rect s Hwf Htr Hlen). cbn [snd].
  set (ic := map centroid_of rect) in *.
  set (s1 := after_matching s ic).
  set (unusedCols := range_difference (length ic)
                                      (rev (map snd (matching s ic)))).
  set (cs := map (fun col => nth col ic (0, 0)) unusedCols).
  pose proof (after_matching_wf s ic Hwf Hic) as Hwf1. fold s1 in Hwf1.
  destruct (after_matching_keys s ic Hwf Hic) as [Ek1 Ek1']. fold s1 in Ek1, Ek1'.
  assert (nextObjectID s1 = nextObjectID s) as Fn1 by apply assign_all_fields.
  assert (length ic = length rect) as Elen by apply length_map.
  assert (length cs + length (matching s ic) = length rect)%nat as Ecs.
  { unfold cs, unusedCols. rewrite length_map, <- Elen.
    rewrite <- (length_map snd (matching s ic)), <- (length_rev (map snd _)).
    apply range_difference_length.
    - apply NoDup_rev. apply accepted_NoDup.
    - apply Forall_forall. intros c Hc. rewrite <- in_rev in Hc.
      apply in_map_iff in Hc. destruct Hc as ([r c'] & <- & Hin).
      apply (matching_valid s ic Hic) in Hin. apply Hin. }
  pose proof (matching_length s rect Hwf Hrect Htr) as Hm. fold ic in Hm.
  exists (length cs). split; [lia|].
  split; [cbn [register_all nextObjectID]; now rewrite Fn1|].
  split.
  { destruct (register_all_keys cs s1) as [-> _].
    now rewrite Ek1, Fn1, ids_from_seq. }
  intros k Hk. cbn [register_all nextObjectID objectsTracked disappeared] in *.
  rewrite Fn1 in *.
  assert (In k (ids_from (nextObjectID s) (length cs))) as Hin
      by (apply ids_from_In; lia).
  assert (~ In k (keys (objectsTracked s1))) as Hnew.
  { intros H. destruct Hwf1 as (_ & _ & Hlt). rewrite Forall_forall in Hlt.
    apply Hlt in H. lia. }
  split.
  - rewrite getitem_app_r by (destruct Hwf1 as (<- & _); exact Hnew).
    now apply getitem_zero_counters_In.
  - rewrite getitem_app_r by exact Hnew.
    destruct (getitem_combine_In (ids_from (nextObjectID s) (length cs)) cs k)
      as (c & Hc & Hcs); [apply ids_from_length | exact Hin |].
    exists c. split; [|exact Hc].
    unfold cs in Hcs. apply in_map_iff in Hcs.
    destruct Hcs as (col & <- & Hcol). apply nth_In.
    apply range_difference_In in Hcol. lia.
Qed.

End AnyPlatform.

(** * The examples, on the reference platform

    The trackers of the examples hold at most three objects and their frames
    at most eight detections, where every platform computes what the
    reference platform computes ([update_reference]). *)

Section Examples.

Import OrderedDict OrderedDictFacts.

#[local] Existing Instance reference_platform.

(** From four objects on the order of equally near objects is the
    platform's: of two objects at the same distance from a detection either
    one can take it, and the other one counts a miss. *)
Lemma equally_near_objects_follow_the_platform :
  argsort (Platform := reference_platform) [1; 1; 0; 0] = [2; 3; 0; 1]%nat
  /\ argsort (Platform := reversing_platform) [1; 1; 0; 0] = [3; 2; 1; 0]%nat
  /\ snd (update (platform := reference_platform) two_boxes four_faces)
     = {| nextObjectID := 5;
          objectsTracked :=
            [(1, (0, 0)); (2, (0, 1)); (3, (100, 0)); (4, (100, -7))];
          disappeared := [(1, 0); (2, 1); (3, 0); (4, 1)];
          maxDisappeared := 13 |}
  /\ snd (update (platform := reversing_platform) two_boxes four_faces)
     = {| nextObjectID := 5;
          objectsTracked :=
            [(1, (1, 0)); (2, (0, 0)); (3, (100, 0)); (4, (100, -7))];
          disappeared := [(1, 1); (2, 0); (3, 0); (4, 1)];
          maxDisappeared := 13 |}.
Proof. repeat split; vm_compute; reflexivity. Qed.

Lemma two_objects_three_detections_witness :
  1 <> 2 /\ 1 < 3 /\ 2 < 3
  /\ fst (update three_boxes two_faces)
     = Return (objectsTracked (snd (update three_boxes two_faces))).
Proof.
  assert (1 <> 2) as H1 by discriminate.
  assert (1 < 3) as H2 by reflexivity.
  assert (2 < 3) as H3 by reflexivity.
  split; [exact H1|]. split; [exact H2|]. split; [exact H3|].
  exact (proj1 (two_objects_three_detections 3 1 2 0 0 13 (0, 0) (20, 0)
                  (8, 0, 8, 0) (200, 0, 200, 0) (400, 0, 400, 0) H1 H2 H3)).
Defined.

(** C3 fails as stated: the tracker has two objects and the frame three
    detections, yet two ids are handed out (3 and 4) and object 2 is not
    updated, because the first detection is the nearest to both objects. *)
Lemma two_objects_three_detections_two_new_ids :
  let self' := snd (update three_boxes two_faces) in
  two_faces = run (init 13) [[(0, 0, 0, 0); (20, 0, 20, 0)]]
  /\ length (objectsTracked two_faces) = 2%nat
  /\ length three_boxes = 3%nat
  /\ keys (objectsTracked self') = [1; 2; 3; 4]
  /\ nextObjectID self' <> nextObjectID two_faces + 1
  /\ getitem (objectsTracked self') 2 = getitem (objectsTracked two_faces) 2
  /\ ~ In (20, 0) (map centroid_of three_boxes).
Proof.
  cbv zeta. split; [exact two_faces_reached|].
  rewrite two_faces_three_boxes. repeat split.
  - discriminate.
  - intros H. vm_compute in H. intuition discriminate.
Qed.

Lemma surviving_object_matched_missed_or_untouched_witness :
  wf two_faces
  /\ ((In (20, 0) (map centroid_of three_boxes) /\ 0 = 0)
      \/ ((length three_boxes <= length (objectsTracked two_faces))%nat
          /\ (20, 0) = (20, 0) :> Centroid /\ 0 = 0 + 1)
      \/ ((length (objectsTracked two_faces) < length three_boxes)%nat
          /\ (20, 0) = (20, 0) :> Centroid /\ 0 = 0)).
Proof.
  split; [apply wf_check_sound; reflexivity|].
  apply (surviving_object_matched_missed_or_untouched
           two_faces three_boxes 2 (20, 0) (20, 0) 0 0);
    [apply wf_check_sound; reflexivity | reflexivity | reflexivity
     | vm_compute; reflexivity | vm_compute; reflexivity
     | vm_compute; reflexivity].
Defined.

(** C2 fails as stated: object 2 is tracked before and after the call, the
    call returns, and the object has neither the centroid of a detection
    with counter 0 nor its old centroid with an incremented counter: both
    its centroid and its counter are unchanged. *)
Lemma survivor_neither_matched_nor_missed :
  let self' := snd (update three_boxes two_faces) in
  two_faces = run (init 13) [[(0, 0, 0, 0); (20, 0, 20, 0)]]
  /\ fst (update three_boxes two_faces) = Return (objectsTracked self')
  /\ getitem (objectsTracked two_faces) 2 = Some (20, 0)
  /\ getitem (disappeared two_faces) 2 = Some 0
  /\ getitem (objectsTracked self') 2 = Some (20, 0)
  /\ getitem (disappeared self') 2 = Some 0
  /\ ~ ((In (20, 0) (map centroid_of three_boxes) /\ 0 = 0)
        \/ ((20, 0) = (20, 0) :> Centroid /\ 0 = 0 + 1)).
Proof.
  cbv zeta. split; [exact two_faces_reached|].
  rewrite two_faces_three_boxes. repeat split.
  intros [[H _] | [_ H]]; [|discriminate].
  vm_compute in H. intuition discriminate.
Qed.

Lemma more_detections_than_objects_witness :
  wf two_faces
  /\ (length (objectsTracked two_faces) < length three_boxes)%nat
  /\ incl (keys (objectsTracked two_faces))
          (keys (objectsTracked (snd (update three_boxes two_faces)))).
Proof.
  assert (wf two_faces) as H1 by (apply wf_check_sound; reflexivity).
  assert (length (objectsTracked two_faces) < length three_boxes)%nat as H2
      by (simpl; lia).
  split; [exact H1|]. split; [exact H2|].
  exact (proj1 (proj2 (more_detections_than_objects
                         two_faces three_boxes H1 H2))).
Defined.

Lemma no_registration_when_objects_outnumber_detections_witness :
  wf three_faces
  /\ (length [(38, 0, 38, 0)] <= length (objectsTracked three_faces))%nat
  /\ NoDup [1; 2; 3]
  /\ nextObjectID (snd (update [(38, 0, 38, 0)] three_faces))
     = nextObjectID three_faces
  /\ update [(38, 0, 38, 0)] three_faces
     = (Return [(1, (0, 0)); (3, (38, 0))],
        {| nextObjectID := 4;
           objectsTracked := [(1, (0, 0)); (3, (38, 0))];
           disappeared := [(1, 1); (3, 0)];
           maxDisappeared := 13 |}).
Proof.
  assert (wf three_faces) as H1 by (apply wf_check_sound; reflexivity).
  assert (length [(38, 0, 38, 0)] <= length (objectsTracked three_faces))%nat
    as H2 by (simpl; lia).
  assert (NoDup [1; 2; 3]) as H3 by (apply distinct_NoDup; reflexivity).
  pose proof (no_registration_when_objects_outnumber_detections
                three_faces [(38, 0, 38, 0)] 4 1 2 3 0 13 5 13
                (0, 0) (20, 0) (40, 0) (38, 0, 38, 0) H1 H2 H3) as W.
  split; [exact H1|]. split; [exact H2|]. split; [exact H3|].
  split; [exact (proj1 (proj1 W)) | exact (proj1 (proj2 W))].
Defined.

Lemma matching_pass_order_witness :
  wf two_faces /\ three_boxes <> [] /\ objectsTracked two_faces <> []
  /\ Permutation
       (row_order (cdist (values (objectsTracked two_faces))
                         (map centroid_of three_boxes)))
       (seq 0 (length (keys (objectsTracked two_faces)))).
Proof.
  assert (wf two_faces) as H1 by (apply wf_check_sound; reflexivity).
  assert (three_boxes <> []) as H2 by discriminate.
  assert (objectsTracked two_faces <> []) as H3 by discriminate.
  split; [exact H1|]. split; [exact H2|]. split; [exact H3|].
  exact (proj1 (proj2 (matching_pass_order two_faces three_boxes H1 H2 H3))).
Defined.

Lemma centroid_of_in_box_witness :
  -7 <= -2 /\ 3 <= 8
  /\ -7 <= fst (centroid_of (-7, 3, -2, 8)) <= -2
  /\ 3 <= snd (centroid_of (-7, 3, -2, 8)) <= 8.
Proof.
  assert (-7 <= -2) as H1 by lia. assert (3 <= 8) as H2 by lia.
  split; [exact H1|]. split; [exact H2|].
  exact (centroid_of_in_box (-7) 3 (-2) 8 H1 H2).
Defined.

Lemma deregister_removes_or_raises_witness :
  wf two_faces
  /\ deregister 7 two_faces = (Raise KeyError, two_faces).
Proof.
  assert (wf two_faces) as H by (apply wf_check_sound; reflexivity).
  split; [exact H|].
  exact (deregister_removes_or_raises two_faces 7 H).
Defined.

Lemma register_then_deregister_witness :
  wf two_faces
  /\ (register (5, 5) ;; deregister 3) two_faces
     = (Return tt,
        {| nextObjectID := 4;
           objectsTracked := [(1, (0, 0)); (2, (20, 0))];
           disappeared := [(1, 0); (2, 0)];
           maxDisappeared := 13 |}).
Proof.
  assert (wf two_faces) as H by (apply wf_check_sound; reflexivity).
  split; [exact H|].
  exact (register_then_deregister two_faces (5, 5) H).
Defined.

Lemma lost_object_lives_maxDisappeared_frames_witness :
  0 <= 2
  /\ run (init 2) ([(0, 0, 4, 4)] :: repeat [] 3)
     = {| nextObjectID := 2; objectsTracked := [];
          disappeared := []; maxDisappeared := 2 |}.
Proof.
  assert (0 <= 2) as H by lia. split; [exact H|].
  exact (proj1 (lost_object_lives_maxDisappeared_frames 2 (0, 0, 4, 4) 3 H)).
Defined.

Lemma returning_face_keeps_id_within_maxDisappeared_witness :
  0 <= 2
  /\ run (init 2) ([(0, 0, 4, 4)] :: repeat [] 3 ++ [[(0, 0, 4, 4)]])
     = {| nextObjectID := 3; objectsTracked := [(2, (2, 2))];
          disappeared := [(2, 0)]; maxDisappeared := 2 |}.
Proof.
  assert (0 <= 2) as H by lia. split; [exact H|].
  exact (returning_face_keeps_id_within_maxDisappeared
           2 (0, 0, 4, 4) (0, 0, 4, 4) 3 H).
Defined.

Lemma update_empty_raises_iff_witness :
  wf three_faces /\ fst (update [] three_faces) = Raise RuntimeError.
Proof.
  assert (wf three_faces) as H by (apply wf_check_sound; reflexivity).
  split; [exact H|].
  apply (proj1 (update_empty_raises_iff three_faces H)).
  right. left. simpl. lia.
Defined.

Lemma update_empty_aborts_at_first_expiry_witness :
  wf three_faces
  /\ disappeared three_faces = [(1, 0)] ++ (2, 13) :: [(3, 5)]
  /\ Forall (fun km => snd km + 1 <= maxDisappeared three_faces) [(1, 0)]
  /\ 13 + 1 > maxDisappeared three_faces
  /\ [(3, 5)] <> []
  /\ update [] three_faces
     = (Raise RuntimeError,
        {| nextObjectID := 4;
           objectsTracked := [(1, (0, 0)); (3, (40, 0))];
           disappeared := [(1, 1); (3, 5)];
           maxDisappeared := 13 |}).
Proof.
  assert (wf three_faces) as H by (apply wf_check_sound; reflexivity).
  assert (Forall (fun km => snd km + 1 <= maxDisappeared three_faces) [(1, 0)])
    as H1 by (repeat constructor; simpl; lia).
  assert (13 + 1 > maxDisappeared three_faces) as H2 by (simpl; lia).
  assert ([(3, 5)] <> ([] : list (Z * Z))) as H3 by discriminate.
  split; [exact H|]. split; [reflexivity|]. split; [exact H1|].
  split; [exact H2|]. split; [exact H3|].
  exact (update_empty_aborts_at_first_expiry three_faces [(1, 0)] [(3, 5)]
           2 13 H eq_refl H1 H2 H3).
Defined.

Lemma update_empty_counts_every_miss_witness :
  wf two_faces
  /\ Forall (fun km => snd km + 1 <= maxDisappeared two_faces)
            (removelast (disappeared two_faces))
  /\ update [] two_faces
     = (Return [(1, (0, 0)); (2, (20, 0))],
        {| nextObjectID := 3;
           objectsTracked := [(1, (0, 0)); (2, (20, 0))];
           disappeared := [(1, 1); (2, 1)];
           maxDisappeared := 13 |}).
Proof.
  assert (wf two_faces) as H by (apply wf_check_sound; reflexivity).
  assert (Forall (fun km => snd km + 1 <= maxDisappeared two_faces)
                 (removelast (disappeared two_faces))) as H1
      by (repeat constructor; simpl; lia).
  split; [exact H|]. split; [exact H1|].
  exact (update_empty_counts_every_miss two_faces H H1).
Defined.

Lemma counters_stay_within_maxDisappeared_witness :
  0 <= 13
  /\ getitem (disappeared (run (init 13) [[(0, 0, 2, 2)]; []; []])) 1 = Some 2
  /\ 0 <= 2 <= 13.
Proof.
  assert (0 <= 13) as H by lia.
  assert (getitem (disappeared (run (init 13) [[(0, 0, 2, 2)]; []; []])) 1
          = Some 2) as H1 by reflexivity.
  split; [exact H|]. split; [exact H1|].
  exact (counters_stay_within_maxDisappeared 13 [[(0, 0, 2, 2)]; []; []] 1 2
           H H1).
Defined.

Lemma update_with_detections_returns_witness :
  wf three_faces /\ [(38, 0, 38, 0)] <> ([] : list Box)
  /\ fst (update [(38, 0, 38, 0)] three_faces)
     = Return (objectsTracked (snd (update [(38, 0, 38, 0)] three_faces))).
Proof.
  assert (wf three_faces) as H by (apply wf_check_sound; reflexivity).
  assert ([(38, 0, 38, 0)] <> ([] : list Box)) as H1 by discriminate.
  split; [exact H|]. split; [exact H1|].
  exact (proj1 (update_with_detections_returns three_faces [(38, 0, 38, 0)]
                  H H1)).
Defined.

Lemma matched_objects_take_distinct_nearest_detections_witness :
  wf two_faces /\ three_boxes <> [] /\ objectsTracked two_faces <> []
  /\ exists pairs : list (nat * nat),
      pairs <> [] /\ NoDup (map fst pairs) /\ NoDup (map snd pairs).
Proof.
  assert (wf two_faces) as H by (apply wf_check_sound; reflexivity).
  assert (three_boxes <> []) as H1 by discriminate.
  assert (objectsTracked two_faces <> []) as H2 by discriminate.
  split; [exact H|]. split; [exact H1|]. split; [exact H2|].
  destruct (matched_objects_take_distinct_nearest_detections
              two_faces three_boxes H H1 H2)
    as (pairs & Hne & Hr & Hc & _).
  exists pairs. split; [exact Hne|]. split; [exact Hr | exact Hc].
Defined.

Lemma nearest_pair_is_matched_witness :
  wf two_faces /\ three_boxes <> [] /\ objectsTracked two_faces <> []
  /\ exists row col : nat,
      getitem (objectsTracked (snd (update three_boxes two_faces)))
              (nth row (keys (objectsTracked two_faces)) 0)
      = Some (nth col (map centroid_of three_boxes) (0, 0)).
Proof.
  assert (wf two_faces) as H by (apply wf_check_sound; reflexivity).
  assert (three_boxes <> []) as H1 by discriminate.
  assert (objectsTracked two_faces <> []) as H2 by discriminate.
  split; [exact H|]. split; [exact H1|]. split; [exact H2|].
  destruct (nearest_pair_is_matched two_faces three_boxes H H1 H2)
    as (row & col & _ & _ & _ & Hc & _).
  exists row, col. exact Hc.
Defined.

Lemma new_ids_when_detections_outnumber_objects_witness :
  wf two_faces /\ objectsTracked two_faces <> []
  /\ (length (objectsTracked two_faces) < length three_boxes)%nat
  /\ exists n : nat,
      (length three_boxes - length (objectsTracked two_faces) <= n
       < length three_boxes)%nat
      /\ nextObjectID (snd (update three_boxes two_faces))
         = nextObjectID two_faces + Z.of_nat n.
Proof.
  assert (wf two_faces) as H by (apply wf_check_sound; reflexivity).
  assert (objectsTracked two_faces <> []) as H1 by discriminate.
  assert (length (objectsTracked two_faces) < length three_boxes)%nat as H2
      by (simpl; lia).
  split; [exact H|]. split; [exact H1|]. split; [exact H2|].
  destruct (new_ids_when_detections_outnumber_objects
              two_faces three_boxes H H1 H2) as (n & Hn & Hid & _).
  exists n. split; [exact Hn | exact Hid].
Defined.

End Examples.
